(** * serial_keybridge: Arduino serial -> keyboard bridge

    A shallow embedding of [serial_keybridge.py] and the proofs of its
    specification.

    - Python [str] values are lists of Unicode code points, [bytes] values
      are lists of [Byte.byte].
    - The built-ins the script calls ([str.strip], [str.split], [int],
      [bytes.decode], [glob.glob]) are modelled after CPython 3.11; the
      annotations of the script need Python 3.10 or later.
    - The global [held_keys] dictionary is threaded explicitly through
      [process_line] and the read loop.  A Python dictionary iterates in
      insertion order, and the cleanup code of [main] iterates it, so it is
      an association list whose update keeps the position of a present key.
    - The keyboard controller is a log of key actions.
    - The outside world (the [/dev] directory, the serial device, what every
      [readline] call returns or raises) is an explicit input.
    - Ctrl+C can arrive anywhere in the loop.  What can be told apart is
      where it falls with respect to the key action and the write to
      [held_keys] of the line in hand: before both (as at the blocking
      [readline], the line being lost), between the two, or after both
      (as at the next [readline]).  The events of a read have a case for
      the first and one for the second; the third is a line followed by
      the first.
    - Console output, [time.sleep] and [ser.close] are not modelled, nor
      is a Ctrl+C that arrives outside the loop: during the delay before
      it, or during the cleanup after it. *)

From Stdlib Require Import List NArith ZArith Bool Lia.
From Stdlib Require Import Strings.String Strings.Ascii Strings.Byte.
From Stdlib Require Import DecimalString DecimalPos DecimalZ.
Import ListNotations.

(* ===================================================================== *)
(** ** Python strings *)
(* ===================================================================== *)

Definition str := list N.

(** An ASCII literal as a [str]. *)
Definition lit (s : string) : str := map Byte.to_N (list_byte_of_string s).

Fixpoint str_eqb (a b : str) : bool :=
  match a, b with
  | [], [] => true
  | x :: a', y :: b' => N.eqb x y && str_eqb a' b'
  | _, _ => false
  end.

(** Truth value of a string: the empty string is false. *)
Definition truthy (s : str) : bool :=
  match s with [] => false | _ :: _ => true end.

Section Whitespace.
Local Open Scope N_scope.

(** [str.isspace] on one code point: the characters removed by
    [str.strip()] and turned into a blank by [int()]. *)
Definition isspace (c : N) : bool :=
  ((9 <=? c) && (c <=? 13)) || ((28 <=? c) && (c <=? 32))
  || (c =? 0x85) || (c =? 0xA0) || (c =? 0x1680)
  || ((0x2000 <=? c) && (c <=? 0x200A))
  || (c =? 0x2028) || (c =? 0x2029) || (c =? 0x202F)
  || (c =? 0x205F) || (c =? 0x3000).

(** C [isspace] in the "C" locale, used by the integer parser once the
    string has been brought to ASCII. *)
Definition ascii_isspace (c : N) : bool :=
  ((9 <=? c) && (c <=? 13)) || (c =? 32).

End Whitespace.

Fixpoint lstrip (s : str) : str :=
  match s with
  | [] => []
  | c :: s' => if isspace c then lstrip s' else s
  end.

Definition rstrip (s : str) : str := rev (lstrip (rev s)).

(** [s.strip()] *)
Definition strip (s : str) : str := rstrip (lstrip s).

(** [s.split(sep)] for a one-character separator: always at least one
    field, empty fields are kept. *)
Fixpoint split (sep : N) (s : str) : list str :=
  match s with
  | [] => [[]]
  | c :: s' =>
      if N.eqb c sep then [] :: split sep s'
      else match split sep s' with
           | p :: ps => (c :: p) :: ps
           | [] => [[c]]
           end
  end.

Definition colon : N := 58%N.

(* ===================================================================== *)
(** ** [int(str)] *)
(* ===================================================================== *)

(** What the interpreter contributes to [int()]: the Unicode database's
    decimal-digit table for the non-ASCII code points, and the limit on the
    number of digits ([sys.get_int_max_str_digits()], 0 for no limit). *)
Record runtime := {
  todecimal : N -> option N;
  int_max_str_digits : N
}.

Section PyInt.
Variable py : runtime.
Local Open Scope N_scope.

Definition is_ascii (s : str) : bool := forallb (fun c => c <? 128) s.

(** Non-ASCII strings are first rewritten: a Unicode blank becomes a
    space, a Unicode decimal digit the ASCII digit of the same value, and
    the first other non-ASCII character becomes ['?'] and ends the text. *)
Fixpoint transform_decimal_and_space (s : str) : str :=
  match s with
  | [] => []
  | c :: s' =>
      if c <? 127 then c :: transform_decimal_and_space s'
      else if isspace c then 32 :: transform_decimal_and_space s'
      else match todecimal py c with
           | Some d => if d <? 10 then (48 + d) :: transform_decimal_and_space s'
                       else [63]
           | None => [63]
           end
  end.

Definition to_ascii (s : str) : str :=
  if is_ascii s then s else transform_decimal_and_space s.

Fixpoint skip_spaces (s : str) : str :=
  match s with
  | [] => []
  | c :: s' => if ascii_isspace c then skip_spaces s' else s
  end.

Definition digit_value (c : N) : option Z :=
  if (48 <=? c) && (c <=? 57) then Some (Z.of_N (c - 48)) else None.

Definition underscore : N := 95.

(** The run of digits, with single underscores allowed between digits.
    Returns the value, the number of digits and the unread rest; [None]
    for a doubled or a trailing underscore. *)
Fixpoint scan_digits (s : str) (prev_underscore : bool) (acc : Z) (digits : N)
  : option (Z * N * str) :=
  match s with
  | [] => if prev_underscore then None else Some (acc, digits, [])
  | c :: s' =>
      if c =? underscore then
        if prev_underscore then None else scan_digits s' true acc digits
      else match digit_value c with
           | Some d => scan_digits s' false (10 * acc + d)%Z (digits + 1)
           | None => if prev_underscore then None else Some (acc, digits, s)
           end
  end.

Definition too_many_digits (digits : N) : bool :=
  (640 <? digits) && (0 <? int_max_str_digits py)
  && (int_max_str_digits py <? digits).

(** [int(s)] in base 10; [None] is [ValueError], the only exception
    [int] raises on a [str]. *)
Definition py_int (s : str) : option Z :=
  let s := skip_spaces (to_ascii s) in
  let '(negative, s) :=
    match s with
    | c :: s' => if c =? 43 then (false, s')
                 else if c =? 45 then (true, s')
                 else (false, s)
    | [] => (false, s)
    end in
  match s with
  | c :: _ => if c =? underscore then None else
      match scan_digits s false 0%Z 0 with
      | None => None
      | Some (v, digits, rest) =>
          if too_many_digits digits then None
          else if digits =? 0 then None
          else match skip_spaces rest with
               | [] => Some (if negative then (- v)%Z else v)
               | _ :: _ => None
               end
      end
  | [] => None
  end.

End PyInt.

(* ===================================================================== *)
(** ** Dictionaries *)
(* ===================================================================== *)

Definition dict (V : Type) := list (str * V).

Fixpoint dict_get {V} (d : dict V) (k : str) : option V :=
  match d with
  | [] => None
  | (k', v) :: d' => if str_eqb k' k then Some v else dict_get d' k
  end.

(** [d.get(k, default)] *)
Definition dict_get_default {V} (d : dict V) (k : str) (default : V) : V :=
  match dict_get d k with Some v => v | None => default end.

(** [d[k] = v]: a present key keeps its place, a new one goes last. *)
Fixpoint dict_set {V} (d : dict V) (k : str) (v : V) : dict V :=
  match d with
  | [] => [(k, v)]
  | (k', v') :: d' =>
      if str_eqb k' k then (k', v) :: d' else (k', v') :: dict_set d' k v
  end.

(** [d.items()] is [d] itself; [keys d] are its keys in order. *)
Definition keys {V} (d : dict V) : list str := map fst d.

(* ===================================================================== *)
(** ** The key-state tracker *)
(* ===================================================================== *)

Definition BAUD : Z := 115200.

Definition BUTTON_TO_KEY : dict str :=
  [ (lit "B1", lit "w");
    (lit "B2", lit "a");
    (lit "B3", lit "s");
    (lit "B4", lit "d") ].

(** [keyboard.press(k)] and [keyboard.release(k)]. *)
Inductive key_action :=
| Press (key_char : str)
| Release (key_char : str).

Section Tracker.
Variable py : runtime.

(** [process_line(line)]: the new [held_keys] and the key actions done. *)
Definition process_line (line : str) (held_keys : dict bool)
  : dict bool * list key_action :=
  let line := strip line in
  if negb (truthy line) then (held_keys, []) else
  match split colon line with
  | [button_id; value] =>
      match py_int py value with
      | None => (held_keys, [])
      | Some n =>
          let pressed := Z.eqb n 1 in
          match dict_get BUTTON_TO_KEY button_id with
          | None => (held_keys, [])
          | Some key_char =>
              if negb (truthy key_char) then (held_keys, []) else
              let already_held := dict_get_default held_keys button_id false in
              if pressed && negb already_held then
                (dict_set held_keys button_id true, [Press key_char])
              else if negb pressed && already_held then
                (dict_set held_keys button_id false, [Release key_char])
              else (held_keys, [])
          end
      end
  | _ => (held_keys, [])
  end.

(** The lines of a session, processed in order. *)
Fixpoint process_lines (lines : list str) (held_keys : dict bool)
  : dict bool * list key_action :=
  match lines with
  | [] => (held_keys, [])
  | line :: lines' =>
      let '(held_keys', acts) := process_line line held_keys in
      let '(held_keys'', acts') := process_lines lines' held_keys' in
      (held_keys'', acts ++ acts')
  end.

End Tracker.

(* ===================================================================== *)
(** ** Port discovery *)
(* ===================================================================== *)

(** The host as the script sees it: the names in [/dev] in the order the
    directory scan lists them, whether [serial.Serial(path, baud)] opens,
    and the patterns globbed so far. *)
Record world := {
  dev_entries : list str;
  serial_opens : str -> Z -> bool;
  scans : list str
}.

Definition star : N := 42%N.
Definition question_mark : N := 63%N.
Definition dot : N := 46%N.

(** Shell-style match of a name against a pattern made of literal
    characters, [*] and [?] (the two patterns of the script have no
    bracket expression). *)
Fixpoint fnmatch (pat name : str) : bool :=
  match pat with
  | [] => negb (truthy name)
  | p :: pat' =>
      if N.eqb p star then
        (fix any (n : str) : bool :=
           fnmatch pat' n || match n with [] => false | _ :: n' => any n' end)
          name
      else match name with
           | [] => false
           | c :: name' =>
               (N.eqb p question_mark || N.eqb p c) && fnmatch pat' name'
           end
  end.

Definition is_hidden (name : str) : bool :=
  match name with c :: _ => N.eqb c dot | [] => false end.

Fixpoint strip_prefix (p s : str) : option str :=
  match p, s with
  | [], _ => Some s
  | x :: p', y :: s' => if N.eqb x y then strip_prefix p' s' else None
  | _ :: _, [] => None
  end.

Definition dev_dir : str := lit "/dev/".

(** [glob.glob(pattern)] for a pattern [/dev/<name pattern>]: the matching
    names of the directory, in listing order, as full paths. *)
Definition glob (pattern : str) (w : world) : list str * world :=
  let found :=
    match strip_prefix dev_dir pattern with
    | None => []
    | Some base =>
        map (app dev_dir)
          (filter (fun name =>
                     (is_hidden base || negb (is_hidden name))
                     && fnmatch base name)
             (dev_entries w))
    end in
  (found, {| dev_entries := dev_entries w;
             serial_opens := serial_opens w;
             scans := scans w ++ [pattern] |}).

Definition usbmodem_pattern : str := lit "/dev/cu.usbmodem*".
Definition usbserial_pattern : str := lit "/dev/cu.usbserial*".

Definition find_arduino_port (w : world) : option str * world :=
  let '(candidates, w) := glob usbmodem_pattern w in
  match candidates with
  | c :: _ => (Some c, w)
  | [] =>
      let '(candidates, w) := glob usbserial_pattern w in
      match candidates with
      | c :: _ => (Some c, w)
      | [] => (None, w)
      end
  end.

(* ===================================================================== *)
(** ** [bytes.decode('utf-8', errors=...)] *)
(* ===================================================================== *)

Inductive error_handler := Strict | Ignore.

(** A multi-byte sequence under way: the bits gathered so far, the range
    the next byte has to lie in, and how many bytes follow that one. *)
Record pending := {
  acc : N;
  lo : N;
  hi : N;
  more : nat
}.

Inductive decoded :=
| Emit (c : N)
| Pend (p : pending)
| Invalid.

Section Utf8.
Local Open Scope N_scope.

(** A byte where a character starts. *)
Definition utf8_start (b : N) : decoded :=
  if b <? 0x80 then Emit b
  else if b <? 0xC2 then Invalid
  else if b <? 0xE0 then
    Pend {| acc := N.land b 0x1F; lo := 0x80; hi := 0xBF; more := 0 |}
  else if b <? 0xF0 then
    Pend {| acc := N.land b 0x0F;
            lo := if b =? 0xE0 then 0xA0 else 0x80;
            hi := if b =? 0xED then 0x9F else 0xBF;
            more := 1 |}
  else if b <? 0xF5 then
    Pend {| acc := N.land b 0x07;
            lo := if b =? 0xF0 then 0x90 else 0x80;
            hi := if b =? 0xF4 then 0x8F else 0xBF;
            more := 2 |}
  else Invalid.

(** A byte inside a sequence; [Invalid] when it is no admissible
    continuation byte. *)
Definition utf8_continue (p : pending) (b : N) : decoded :=
  if (lo p <=? b) && (b <=? hi p) then
    let acc' := N.lor (N.shiftl (acc p) 6) (N.land b 0x3F) in
    match more p with
    | O => Emit acc'
    | S k => Pend {| acc := acc'; lo := 0x80; hi := 0xBF; more := k |}
    end
  else Invalid.

(** The decoder.  [None] is [UnicodeDecodeError].  With [Ignore] the bytes
    of an ill-formed sequence are dropped and decoding goes on at the byte
    that broke it; a sequence cut short by the end of the data is dropped. *)
Fixpoint utf8_decode (errors : error_handler) (st : option pending)
  (bs : list byte) : option str :=
  match bs with
  | [] =>
      match st, errors with
      | Some _, Strict => None
      | _, _ => Some []
      end
  | b :: bs' =>
      let go (r : decoded) : option str :=
        match r with
        | Emit c => option_map (cons c) (utf8_decode errors None bs')
        | Pend p => utf8_decode errors (Some p) bs'
        | Invalid =>
            match errors with
            | Strict => None
            | Ignore => utf8_decode errors None bs'
            end
        end in
      match st with
      | None => go (utf8_start (Byte.to_N b))
      | Some p =>
          match utf8_continue p (Byte.to_N b) with
          | Invalid =>
              match errors with
              | Strict => None
              | Ignore => go (utf8_start (Byte.to_N b))
              end
          | r => go r
          end
      end
  end.

End Utf8.

(** [raw.decode('utf-8', errors=...)] *)
Definition bytes_decode (errors : error_handler) (raw : list byte) : option str :=
  utf8_decode errors None raw.

(* ===================================================================== *)
(** ** The main loop *)
(* ===================================================================== *)

Inductive exn :=
| KeyboardInterrupt
| SerialException
| UnicodeDecodeError.

(** What one call of [ser.readline()] does: return bytes (none on a
    timeout), be interrupted by Ctrl+C, or fail on the device; and, last,
    return bytes with Ctrl+C arriving while they are handled, after the
    key action of [process_line] (if it does one) and before its write
    to [held_keys]. *)
Inductive read_event :=
| ReadLine (raw : list byte)
| Interrupt
| ReadFailure
| InterruptedLine (raw : list byte).

Inductive loop_end :=
| Blocked
| Raised (e : exn).

(** How the process stands at the end of the events. *)
Inductive outcome :=
| SysExit (code : Z)
| Returned
| Uncaught (e : exn)
| StillRunning (held_keys : dict bool).

(** The exit status of the process, when it has one. *)
Definition exit_code (o : outcome) : option Z :=
  match o with
  | SysExit code => Some code
  | Returned => Some 0%Z
  | Uncaught _ => Some 1%Z
  | StillRunning _ => None
  end.

(** The [finally] block: release every key still held. *)
Fixpoint release_held_keys (items : dict bool) : list key_action :=
  match items with
  | [] => []
  | (button_id, is_held) :: items' =>
      (if is_held then
         match dict_get BUTTON_TO_KEY button_id with
         | Some key_char => if truthy key_char then [Release key_char] else []
         | None => []
         end
       else [])
      ++ release_held_keys items'
  end.

Section Main.
Variable py : runtime.

(** The body of [while True], over the events of the connection. *)
Fixpoint read_loop (reads : list read_event) (held_keys : dict bool)
  : loop_end * dict bool * list key_action :=
  match reads with
  | [] => (Blocked, held_keys, [])
  | Interrupt :: _ => (Raised KeyboardInterrupt, held_keys, [])
  | ReadFailure :: _ => (Raised SerialException, held_keys, [])
  | InterruptedLine raw :: _ =>
      match raw with
      | [] => (Raised KeyboardInterrupt, held_keys, [])
      | _ :: _ =>
          match bytes_decode Ignore raw with
          | None => (Raised UnicodeDecodeError, held_keys, [])
          | Some text =>
              let line := strip text in
              if truthy line then
                (Raised KeyboardInterrupt, held_keys,
                 snd (process_line py line held_keys))
              else (Raised KeyboardInterrupt, held_keys, [])
          end
      end
  | ReadLine raw :: reads' =>
      match raw with
      | [] => read_loop reads' held_keys
      | _ :: _ =>
          match bytes_decode Ignore raw with
          | None => (Raised UnicodeDecodeError, held_keys, [])
          | Some text =>
              let line := strip text in
              if truthy line then
                let '(held_keys', acts) := process_line py line held_keys in
                let '(ending, held_keys'', acts') := read_loop reads' held_keys' in
                (ending, held_keys'', acts ++ acts')
              else read_loop reads' held_keys
          end
      end
  end.

(** [main()], started with the empty [held_keys] of the module. *)
Definition main (w : world) (reads : list read_event)
  : outcome * list key_action :=
  let '(port_path, w) := find_arduino_port w in
  match port_path with
  | None => (SysExit 1, [])
  | Some port =>
      if negb (truthy port) then (SysExit 1, [])
      else if negb (serial_opens w port BAUD) then (SysExit 1, [])
      else
        let '(ending, held_keys, acts) := read_loop reads [] in
        match ending with
        | Blocked => (StillRunning held_keys, acts)
        | Raised KeyboardInterrupt =>
            (Returned, acts ++ release_held_keys held_keys)
        | Raised e =>
            (Uncaught e, acts ++ release_held_keys held_keys)
        end
  end.

End Main.

(* ===================================================================== *)
(** ** The specification's vocabulary *)
(* ===================================================================== *)

(** The Key State Tracker as section 4.3 of the specification words it,
    on a decoded event (button, mapped key, pressed); [process_line] is
    compared with it in [process_line_decodes]. *)
Definition key_state_tracker (button_id key_char : str) (pressed : bool)
  (held_keys : dict bool) : dict bool * list key_action :=
  let held := dict_get_default held_keys button_id false in
  if pressed && negb held then
    (dict_set held_keys button_id true, [Press key_char])
  else if negb pressed && held then
    (dict_set held_keys button_id false, [Release key_char])
  else (held_keys, []).

(** Presses and releases of one key come in turns: no press while the key
    is down, no release while it is up. *)
Fixpoint alternates (key_char : str) (down : bool) (acts : list key_action)
  : bool :=
  match acts with
  | [] => true
  | Press k :: acts' =>
      if str_eqb k key_char then negb down && alternates key_char true acts'
      else alternates key_char down acts'
  | Release k :: acts' =>
      if str_eqb k key_char then down && alternates key_char false acts'
      else alternates key_char down acts'
  end.

(** What [held_keys] satisfies all along: no button twice, and only
    buttons of the table. *)
Definition held_keys_ok (held_keys : dict bool) : Prop :=
  NoDup (keys held_keys) /\
  forall b, In b (keys held_keys) -> exists k, dict_get BUTTON_TO_KEY b = Some k.

(** [kept] is what is left of [bs] after deleting some bytes. *)
Inductive subseq : list byte -> list byte -> Prop :=
| subseq_nil : subseq [] []
| subseq_keep b kept bs : subseq kept bs -> subseq (b :: kept) (b :: bs)
| subseq_drop b kept bs : subseq kept bs -> subseq kept (b :: bs).

(** The text the read loop gets out of the bytes of one [readline]. *)
Definition received_text (raw : list byte) : str :=
  match bytes_decode Ignore raw with Some text => text | None => [] end.

(** The UTF-8 form of a text, [s.encode('utf-8')], against which the
    decoder is checked.  Scalar values are the code points that have one:
    all but the surrogates. *)
Definition byte_of_N (n : N) : byte :=
  match Byte.of_N n with Some b => b | None => x00 end.

Section Utf8Encode.
Local Open Scope N_scope.

Definition continuation_byte (c shift : N) : N :=
  N.lor 0x80 (N.land (N.shiftr c shift) 0x3F).

Definition utf8_encode_char (c : N) : list byte :=
  map byte_of_N
    (if c <? 0x80 then [c]
     else if c <? 0x800 then
       [N.lor 0xC0 (N.shiftr c 6); continuation_byte c 0]
     else if c <? 0x10000 then
       [N.lor 0xE0 (N.shiftr c 12); continuation_byte c 6;
        continuation_byte c 0]
     else
       [N.lor 0xF0 (N.shiftr c 18); continuation_byte c 12;
        continuation_byte c 6; continuation_byte c 0]).

Definition is_scalar (c : N) : bool :=
  (c <? 0xD800) || ((0xDFFF <? c) && (c <? 0x110000)).

End Utf8Encode.

Definition str_encode (s : str) : list byte := flat_map utf8_encode_char s.

Definition has_prefix (p s : str) : bool :=
  match strip_prefix p s with Some _ => true | None => false end.

(** An interpreter without non-ASCII digits and with the default digit
    limit, for the examples. *)
Definition ascii_runtime : runtime :=
  {| todecimal := fun _ => None; int_max_str_digits := 4300 |}.

(** A host with an Arduino plugged in, for the examples. *)
Definition mac_host : world :=
  {| dev_entries := [lit "cu.Bluetooth-Incoming-Port"; lit "cu.usbserial-1420";
                     lit "cu.usbmodem14201"];
     serial_opens := fun _ _ => true;
     scans := [] |}.

(** [sep.join(parts)] for a one-character separator. *)
Fixpoint join (sep : N) (parts : list str) : str :=
  match parts with
  | [] => []
  | [p] => p
  | p :: parts' => p ++ sep :: join sep parts'
  end.

(** A read that gives the loop nothing to do: a timeout, or bytes whose
    text is blank. *)
Definition is_idle_read (r : read_event) : bool :=
  match r with
  | ReadLine raw => negb (truthy (strip (received_text raw)))
  | Interrupt | ReadFailure | InterruptedLine _ => false
  end.

(** 1 for a key that is down, 0 for one that is up. *)
Definition down_count (held : bool) : nat := if held then 1 else 0.

(** What holds of a sequence under way: the next byte has to be a
    continuation byte, and the bits gathered so far are too many for a
    shorter form. *)
Definition pending_bounds (p : pending) : Prop :=
  (128 <= lo p /\ hi p <= 191 /\
   match more p with
   | O => 128 <= acc p * 64 + (lo p - 128)
   | S O => 2 <= acc p * 64 + (lo p - 128)
   | S (S _) => 1 <= acc p * 64 + (lo p - 128)
   end)%N.

(** [pre] begins the UTF-8 form of some scalar value. *)
Definition starts_a_character (pre : list byte) : Prop :=
  exists c more, is_scalar c = true /\ utf8_encode_char c = pre ++ more.

(** [pre] begins the UTF-8 form of some scalar value and is not the
    whole of it. *)
Definition cut_short (pre : list byte) : Prop :=
  pre <> [] /\
  exists c more,
    is_scalar c = true /\ more <> [] /\ utf8_encode_char c = pre ++ more.

(** What discarding the bytes that are not valid UTF-8 means, in terms
    of the encoder alone.  Reading from the left: the UTF-8 form of a
    scalar value gives that character; a byte that begins no character
    is dropped; the beginning of a character that the next byte does not
    continue is dropped and reading goes on at that byte; the beginning
    of a character that the end of the data cuts short is dropped. *)
Inductive lenient_decoding : list byte -> str -> Prop :=
| lenient_end : lenient_decoding [] []
| lenient_character c rest text :
    is_scalar c = true ->
    lenient_decoding rest text ->
    lenient_decoding (utf8_encode_char c ++ rest) (c :: text)
| lenient_stray b rest text :
    ~ starts_a_character [b] ->
    lenient_decoding rest text ->
    lenient_decoding (b :: rest) text
| lenient_broken pre b rest text :
    cut_short pre ->
    ~ starts_a_character (pre ++ [b]) ->
    lenient_decoding (b :: rest) text ->
    lenient_decoding (pre ++ b :: rest) text
| lenient_truncated pre :
    cut_short pre ->
    lenient_decoding pre [].

(** The state [p] is where the decoder stands after the bytes [buf] of a
    sequence under way. *)
Definition pending_reached (buf : list byte) (p : pending) : Prop :=
  buf <> [] /\ (lo p <= hi p)%N /\ (hi p < 256)%N /\
  forall errors tail,
    utf8_decode errors None (buf ++ tail) = utf8_decode errors (Some p) tail.

Definition str_eq_dec : forall a b : str, {a = b} + {a <> b} :=
  list_eq_dec N.eq_dec.

Definition key_action_eq_dec (a b : key_action) : {a = b} + {a <> b}.
Proof.
  decide equality; apply str_eq_dec.
Defined.

(* ===================================================================== *)
(** ** Strings and dictionaries *)
(* ===================================================================== *)

Lemma str_eqb_eq (a b : str) : str_eqb a b = true <-> a = b.
Proof.
  revert b; induction a as [|x a IH]; intros [|y b]; simpl;
    try (split; (discriminate || reflexivity)).
  rewrite andb_true_iff, N.eqb_eq, IH.
  split; [intros [-> ->]; reflexivity | intros H; inversion H; auto].
Qed.

Lemma str_eqb_refl (a : str) : str_eqb a a = true.
Proof. apply str_eqb_eq; reflexivity. Qed.

Lemma str_eqb_neq (a b : str) : str_eqb a b = false <-> a <> b.
Proof.
  rewrite <- str_eqb_eq. destruct (str_eqb a b); split; congruence.
Qed.

Section DictFacts.
Context {V : Type}.
Implicit Types (d : dict V) (k : str) (v : V).

Lemma dict_get_set_same d k v : dict_get (dict_set d k v) k = Some v.
Proof.
  induction d as [|[k' v'] d IH]; simpl.
  - now rewrite str_eqb_refl.
  - destruct (str_eqb k' k) eqn:E; simpl; rewrite E; auto.
Qed.

Lemma dict_get_set_other d k k' v :
  k <> k' -> dict_get (dict_set d k v) k' = dict_get d k'.
Proof.
  intros Hne. induction d as [|[k0 v0] d IH]; simpl.
  - apply str_eqb_neq in Hne. now rewrite Hne.
  - destruct (str_eqb k0 k) eqn:E; simpl.
    + apply str_eqb_eq in E; subst k0.
      apply str_eqb_neq in Hne. now rewrite Hne.
    + now rewrite IH.
Qed.

Lemma dict_get_In d k v : dict_get d k = Some v -> In k (keys d).
Proof.
  induction d as [|[k0 v0] d IH]; simpl; [discriminate|].
  destruct (str_eqb k0 k) eqn:E; auto.
  apply str_eqb_eq in E; auto.
Qed.

Lemma keys_dict_set d k v :
  keys (dict_set d k v) = if in_dec str_eq_dec k (keys d)
                          then keys d else keys d ++ [k].
Proof.
  induction d as [|[k0 v0] d IH]; simpl; auto.
  destruct (str_eqb k0 k) eqn:E.
  - apply str_eqb_eq in E; subst.
    destruct (str_eq_dec k k); [|congruence].
    reflexivity.
  - apply str_eqb_neq in E. simpl. unfold keys in *. rewrite IH.
    destruct (str_eq_dec k0 k); [contradiction|].
    destruct (in_dec str_eq_dec k (map fst d)); reflexivity.
Qed.

Lemma In_keys_dict_set d k v k' :
  In k' (keys (dict_set d k v)) <-> k' = k \/ In k' (keys d).
Proof.
  rewrite keys_dict_set.
  destruct (in_dec str_eq_dec k (keys d)) as [i|n].
  - split; [auto | intros [->|]; auto].
  - rewrite in_app_iff; simpl. intuition.
Qed.

Lemma NoDup_keys_dict_set d k v :
  NoDup (keys d) -> NoDup (keys (dict_set d k v)).
Proof.
  intros H. rewrite keys_dict_set.
  destruct (in_dec str_eq_dec k (keys d)) as [i|n]; auto.
  apply NoDup_app; auto.
  - repeat constructor; simpl; tauto.
  - intros x Hx [<-|[]]. contradiction.
Qed.

End DictFacts.

Lemma dict_get_In_pair {V} (d : dict V) k v :
  dict_get d k = Some v -> In (k, v) d.
Proof.
  induction d as [|[k0 v0] d IH]; simpl; [discriminate|].
  destruct (str_eqb k0 k) eqn:E; auto.
  apply str_eqb_eq in E; subst. intros [= ->]. auto.
Qed.

(* ===================================================================== *)
(** ** The button table *)
(* ===================================================================== *)

Lemma button_cases b k :
  dict_get BUTTON_TO_KEY b = Some k ->
  (b, k) = (lit "B1", lit "w") \/ (b, k) = (lit "B2", lit "a") \/
  (b, k) = (lit "B3", lit "s") \/ (b, k) = (lit "B4", lit "d").
Proof.
  intros H. apply dict_get_In_pair in H.
  unfold BUTTON_TO_KEY in H. simpl In in H.
  intuition (auto using eq_sym).
Qed.

(** Case analysis over the four rows of the table. *)
Ltac buttons H :=
  apply button_cases in H;
  destruct H as [H|[H|[H|H]]]; injection H as -> ->.

Lemma button_key_truthy b k :
  dict_get BUTTON_TO_KEY b = Some k -> truthy k = true.
Proof. intros H. buttons H; reflexivity. Qed.

Lemma button_injective b b' k :
  dict_get BUTTON_TO_KEY b = Some k -> dict_get BUTTON_TO_KEY b' = Some k ->
  b = b'.
Proof.
  intros H H'. buttons H; apply button_cases in H';
    destruct H' as [H'|[H'|[H'|H']]]; injection H' as ->; intros; 
    (reflexivity || discriminate).
Qed.

(** The wire form of a button event is read back as that button and
    digit: nothing is trimmed and the colon is the only separator. *)
Lemma button_line_splits b k (digit : N) :
  dict_get BUTTON_TO_KEY b = Some k ->
  isspace digit = false -> digit <> colon ->
  split colon (strip (b ++ [colon; digit])) = [b; [digit]].
Proof.
  intros H Hsp Hc. apply N.eqb_neq in Hc.
  buttons H; unfold strip, rstrip; cbn; rewrite Hsp; cbn; rewrite Hc;
    reflexivity.
Qed.

(* ===================================================================== *)
(** ** One line *)
(* ===================================================================== *)

Section LineFacts.
Variable py : runtime.

Lemma split_two_truthy line b v :
  split colon line = [b; v] -> truthy line = true.
Proof. destruct line; [discriminate | reflexivity]. Qed.

(** A line that passes all four checks is the tracker applied to the
    decoded event. *)
Lemma process_line_decodes line held b v n k :
  split colon (strip line) = [b; v] ->
  py_int py v = Some n ->
  dict_get BUTTON_TO_KEY b = Some k ->
  process_line py line held = key_state_tracker b k (Z.eqb n 1) held.
Proof.
  intros Hs Hn Hk. unfold process_line.
  rewrite (split_two_truthy _ _ _ Hs), Hs, Hn, Hk, (button_key_truthy _ _ Hk).
  reflexivity.
Qed.

(** Every line is either dropped or handled by the tracker for a button
    of the table. *)
Lemma process_line_cases line held :
  process_line py line held = (held, []) \/
  exists b k pressed,
    dict_get BUTTON_TO_KEY b = Some k /\
    process_line py line held = key_state_tracker b k pressed held.
Proof.
  unfold process_line.
  destruct (truthy (strip line)); [|now left].
  destruct (split colon (strip line)) as [|b [|v [|? ?]]]; try now left.
  destruct (py_int py v) as [n|]; [|now left].
  destruct (dict_get BUTTON_TO_KEY b) as [k|] eqn:Hk; [|now left].
  rewrite (button_key_truthy _ _ Hk).
  right. exists b, k, (Z.eqb n 1). auto.
Qed.

Lemma button_down_line b k held :
  dict_get BUTTON_TO_KEY b = Some k ->
  process_line py (b ++ lit ":1") held = key_state_tracker b k true held.
Proof.
  intros Hk.
  apply (process_line_decodes _ held b (lit "1") 1%Z k); auto.
  now apply (button_line_splits b k 49%N).
Qed.

Lemma button_up_line b k held :
  dict_get BUTTON_TO_KEY b = Some k ->
  process_line py (b ++ lit ":0") held = key_state_tracker b k false held.
Proof.
  intros Hk.
  apply (process_line_decodes _ held b (lit "0") 0%Z k); auto.
  now apply (button_line_splits b k 48%N).
Qed.

End LineFacts.

(* ===================================================================== *)
(** ** The tracker *)
(* ===================================================================== *)

Lemma get_default_set_same (held : dict bool) b v :
  dict_get_default (dict_set held b v) b false = v.
Proof. unfold dict_get_default. now rewrite dict_get_set_same. Qed.

Lemma get_default_set_other (held : dict bool) b b' v :
  b <> b' ->
  dict_get_default (dict_set held b v) b' false = dict_get_default held b' false.
Proof.
  intros H. unfold dict_get_default. now rewrite dict_get_set_other.
Qed.

(** The three things the tracker can do. *)
Lemma tracker_cases b k pressed held :
  (key_state_tracker b k pressed held = (held, [])) \/
  (pressed = true /\ dict_get_default held b false = false /\
   key_state_tracker b k pressed held = (dict_set held b true, [Press k])) \/
  (pressed = false /\ dict_get_default held b false = true /\
   key_state_tracker b k pressed held = (dict_set held b false, [Release k])).
Proof.
  unfold key_state_tracker.
  destruct pressed, (dict_get_default held b false); simpl; auto.
Qed.

Lemma tracker_alternates b k b' k' pressed held rest :
  dict_get BUTTON_TO_KEY b = Some k ->
  dict_get BUTTON_TO_KEY b' = Some k' ->
  alternates k
    (dict_get_default (fst (key_state_tracker b' k' pressed held)) b false)
    rest = true ->
  alternates k (dict_get_default held b false)
    (snd (key_state_tracker b' k' pressed held) ++ rest) = true.
Proof.
  intros Hk Hk'.
  destruct (tracker_cases b' k' pressed held)
    as [E|[(_ & Hheld & E)|(_ & Hheld & E)]]; rewrite E; simpl; auto.
  - destruct (str_eqb k' k) eqn:Ek.
    + apply str_eqb_eq in Ek; subst k'.
      assert (b' = b) by eauto using button_injective; subst b'.
      now rewrite get_default_set_same, Hheld.
    + assert (b' <> b) by (intros ->; apply str_eqb_neq in Ek; congruence).
      now rewrite get_default_set_other.
  - destruct (str_eqb k' k) eqn:Ek.
    + apply str_eqb_eq in Ek; subst k'.
      assert (b' = b) by eauto using button_injective; subst b'.
      now rewrite get_default_set_same, Hheld.
    + assert (b' <> b) by (intros ->; apply str_eqb_neq in Ek; congruence).
      now rewrite get_default_set_other.
Qed.

Lemma tracker_keeps_ok b k pressed held :
  dict_get BUTTON_TO_KEY b = Some k ->
  held_keys_ok held -> held_keys_ok (fst (key_state_tracker b k pressed held)).
Proof.
  intros Hk [Hnd Hin].
  assert (Hset : forall v, held_keys_ok (dict_set held b v)).
  { intros v. split; [now apply NoDup_keys_dict_set|].
    intros b0 H0. apply In_keys_dict_set in H0 as [->|H0]; eauto. }
  destruct (tracker_cases b k pressed held) as [E|[(_ & _ & E)|(_ & _ & E)]];
    rewrite E; simpl; auto. now split.
Qed.

Section SessionFacts.
Variable py : runtime.

Lemma process_line_keeps_ok line held :
  held_keys_ok held -> held_keys_ok (fst (process_line py line held)).
Proof.
  intros H.
  destruct (process_line_cases py line held) as [E|(b & k & pressed & Hk & E)];
    rewrite E; auto using tracker_keeps_ok.
Qed.

Lemma process_lines_alternate lines : forall held b k,
  dict_get BUTTON_TO_KEY b = Some k ->
  alternates k (dict_get_default held b false)
    (snd (process_lines py lines held)) = true.
Proof.
  induction lines as [|line lines IH]; intros held b k Hk; simpl; auto.
  specialize (IH (fst (process_line py line held)) b k Hk).
  destruct (process_line py line held) as [held' acts] eqn:E.
  simpl in IH.
  destruct (process_lines py lines held') as [held'' acts'] eqn:E'.
  simpl in IH |- *.
  destruct (process_line_cases py line held) as [E0|(b' & k' & pressed & Hk' & E0)];
    rewrite E in E0.
  - injection E0 as -> ->. exact IH.
  - pose proof (tracker_alternates b k b' k' pressed held acts' Hk Hk') as A.
    rewrite <- E0 in A. simpl in A. auto.
Qed.

End SessionFacts.

(* ===================================================================== *)
(** ** Claims about single lines and sessions *)
(* ===================================================================== *)

(** C2. The key-state tracker is edge-triggered.  For a button of the
    table that is not held, the line ["<id>:1"] does exactly one key-down
    of the mapped key and sets the held-state, and the same line again
    does nothing; for a held button the line ["<id>:0"] does exactly one
    key-up and clears the held-state, and the same line again does
    nothing.  No line does more than one action, and over any sequence of
    lines the downs and ups of the key come in turns, starting from the
    button's held-state: a down only when the key is up, an up only when
    it is down. *)
Theorem edge_triggered (py : runtime) (b k : str) (held : dict bool) :
  dict_get BUTTON_TO_KEY b = Some k ->
  (dict_get_default held b false = false ->
     process_line py (b ++ lit ":1") held = (dict_set held b true, [Press k]) /\
     dict_get_default (dict_set held b true) b false = true /\
     process_line py (b ++ lit ":1") (dict_set held b true)
       = (dict_set held b true, [])) /\
  (dict_get_default held b false = true ->
     process_line py (b ++ lit ":0") held
       = (dict_set held b false, [Release k]) /\
     dict_get_default (dict_set held b false) b false = false /\
     process_line py (b ++ lit ":0") (dict_set held b false)
       = (dict_set held b false, [])) /\
  (forall line, List.length (snd (process_line py line held)) <= 1) /\
  (forall lines,
     alternates k (dict_get_default held b false)
       (snd (process_lines py lines held)) = true).
Proof.
  intros Hk. split; [|split; [|split]].
  - intros H. split; [|split].
    + rewrite (button_down_line py b k held Hk). unfold key_state_tracker.
      now rewrite H.
    + apply get_default_set_same.
    + rewrite (button_down_line py b k _ Hk). unfold key_state_tracker.
      now rewrite get_default_set_same.
  - intros H. split; [|split].
    + rewrite (button_up_line py b k held Hk). unfold key_state_tracker.
      now rewrite H.
    + apply get_default_set_same.
    + rewrite (button_up_line py b k _ Hk). unfold key_state_tracker.
      now rewrite get_default_set_same.
  - intros line.
    destruct (process_line_cases py line held) as [E|(b' & k' & p & _ & E)];
      rewrite E; [simpl; lia|].
    destruct (tracker_cases b' k' p held) as [E'|[(_ & _ & E')|(_ & _ & E')]];
      rewrite E'; simpl; lia.
  - intros lines. now apply process_lines_alternate.
Qed.

Lemma edge_triggered_witness :
  process_line ascii_runtime (lit "B2:1") [] = ([(lit "B2", true)], [Press (lit "a")])
  /\ process_line ascii_runtime (lit "B2:1") [(lit "B2", true)]
     = ([(lit "B2", true)], [])
  /\ process_line ascii_runtime (lit "B2:0") [(lit "B2", true)]
     = ([(lit "B2", false)], [Release (lit "a")]).
Proof.
  destruct (edge_triggered ascii_runtime (lit "B2") (lit "a") [] eq_refl)
    as (Hdown & _).
  destruct (Hdown eq_refl) as (H1 & _ & H2).
  destruct (edge_triggered ascii_runtime (lit "B2") (lit "a")
              [(lit "B2", true)] eq_refl) as (_ & Hup & _).
  destruct (Hup eq_refl) as (H3 & _).
  exact (conj H1 (conj H2 H3)).
Defined.

(** C3. On a well-formed line (two fields, the first a button of the
    table, the second an integer [n]) the decoded pressed flag is true
    exactly when [n = 1].  The line is no error: it is handled by the
    tracker with that flag, so it acts as ["<id>:1"] when [n = 1] and as
    ["<id>:0"] for every other integer, negative or greater than one; and
    ["<id>:1"] and ["<id>:0"] never act alike. *)
Theorem pressed_iff_one (py : runtime) (line : str) (held : dict bool)
  (b v : str) (n : Z) (k : str) :
  split colon (strip line) = [b; v] ->
  py_int py v = Some n ->
  dict_get BUTTON_TO_KEY b = Some k ->
  exists pressed : bool,
    (pressed = true <-> n = 1%Z) /\
    process_line py line held = key_state_tracker b k pressed held /\
    (n = 1%Z ->
       process_line py line held = process_line py (b ++ lit ":1") held) /\
    (n <> 1%Z ->
       process_line py line held = process_line py (b ++ lit ":0") held) /\
    process_line py (b ++ lit ":1") held <> process_line py (b ++ lit ":0") held.
Proof.
  intros Hs Hn Hk. exists (Z.eqb n 1).
  rewrite (process_line_decodes py line held b v n k Hs Hn Hk).
  rewrite (button_down_line py b k held Hk), (button_up_line py b k held Hk).
  repeat split.
  - apply Z.eqb_eq.
  - apply Z.eqb_eq.
  - intros ->. reflexivity.
  - intros Hne. apply Z.eqb_neq in Hne. now rewrite Hne.
  - unfold key_state_tracker.
    destruct (dict_get_default held b false); simpl; congruence.
Qed.

Lemma pressed_iff_one_witness :
  process_line ascii_runtime (lit "B1:-1") [(lit "B1", true)]
  = process_line ascii_runtime (lit "B1:0") [(lit "B1", true)].
Proof.
  destruct (pressed_iff_one ascii_runtime (lit "B1:-1") [(lit "B1", true)]
              (lit "B1") (lit "-1") (-1)%Z (lit "w") eq_refl eq_refl eq_refl)
    as (pressed & _ & _ & _ & H & _).
  apply H. lia.
Defined.

(** C4. A line that is empty once trimmed, or does not split at the
    colons into exactly two fields, or whose second field is no integer,
    or whose first field is no button of the table, does no key action
    and leaves the held-state as it was. *)
Theorem malformed_line_dropped (py : runtime) (line : str) (held : dict bool) :
  strip line = [] \/
  List.length (split colon (strip line)) <> 2 \/
  (exists b v, split colon (strip line) = [b; v] /\
               (py_int py v = None \/ dict_get BUTTON_TO_KEY b = None)) ->
  process_line py line held = (held, []).
Proof.
  unfold process_line.
  intros [H|[H|(b & v & H & [Hv|Hb])]].
  - now rewrite H.
  - destruct (truthy (strip line)); auto.
    destruct (split colon (strip line)) as [|? [|? [|? ?]]]; auto.
    now elim H.
  - rewrite H, Hv. now destruct (truthy (strip line)).
  - rewrite H, Hb. destruct (truthy (strip line)); auto.
    now destruct (py_int py v).
Qed.

Lemma malformed_line_dropped_witness :
  process_line ascii_runtime (lit "B9:1") [(lit "B1", true)]
    = ([(lit "B1", true)], [])
  /\ process_line ascii_runtime (lit "B1") [(lit "B1", true)]
     = ([(lit "B1", true)], [])
  /\ process_line ascii_runtime (lit "B1:1:1") [(lit "B1", true)]
     = ([(lit "B1", true)], [])
  /\ process_line ascii_runtime (lit "B1:x") [(lit "B1", true)]
     = ([(lit "B1", true)], [])
  /\ process_line ascii_runtime (lit "   ") [(lit "B1", true)]
     = ([(lit "B1", true)], []).
Proof.
  split; [|split; [|split; [|split]]]; apply malformed_line_dropped.
  - right; right. exists (lit "B9"), (lit "1"). split; [reflexivity|].
    right; reflexivity.
  - right; left. vm_compute. lia.
  - right; left. vm_compute. lia.
  - right; right. exists (lit "B1"), (lit "x"). split; [reflexivity|].
    left; reflexivity.
  - left; reflexivity.
Defined.

(** C5. From the empty held-state the lines B1:1, B1:1, B3:1, B1:0, B3:0
    do exactly W-down, S-down, W-up, S-up, in this order, and nothing
    else; so does the read loop when the same lines arrive as bytes with
    their line ends. *)
Theorem end_to_end_sequence (py : runtime) :
  snd (process_lines py
         [lit "B1:1"; lit "B1:1"; lit "B3:1"; lit "B1:0"; lit "B3:0"] [])
  = [Press (lit "w"); Press (lit "s"); Release (lit "w"); Release (lit "s")]
  /\ snd (read_loop py
            (map (fun l => ReadLine (list_byte_of_string l ++ [x0d; x0a]))
               ["B1:1"; "B1:1"; "B3:1"; "B1:0"; "B3:0"]%string) [])
  = [Press (lit "w"); Press (lit "s"); Release (lit "w"); Release (lit "s")].
Proof. split; reflexivity. Qed.

(* ===================================================================== *)
(** ** Port discovery *)
(* ===================================================================== *)

Lemma fnmatch_star_any name : fnmatch [star] name = true.
Proof.
  induction name as [|c name IH]; [reflexivity|].
  simpl in IH |- *. exact IH.
Qed.

(** A literal text followed by [*] matches the names that start with the
    text. *)
Lemma fnmatch_literal_star p : forall name,
  Forall (fun c => c <> star /\ c <> question_mark) p ->
  fnmatch (p ++ [star]) name = has_prefix p name.
Proof.
  induction p as [|x p IH]; intros name Hp.
  - apply fnmatch_star_any.
  - inversion Hp as [|? ? [Hs Hq] Hp']; subst.
    apply N.eqb_neq in Hs, Hq.
    cbn [app fnmatch]. rewrite Hs, Hq.
    destruct name as [|c name]; [reflexivity|].
    unfold has_prefix in *. cbn [strip_prefix orb].
    destruct (N.eqb x c); [apply IH; assumption | reflexivity].
Qed.

Lemma has_prefix_not_hidden p c name :
  c <> dot -> has_prefix (c :: p) name = true -> is_hidden name = false.
Proof.
  intros Hc. unfold has_prefix, is_hidden.
  destruct name as [|x name]; [reflexivity|]. simpl.
  destruct (N.eqb c x) eqn:E; [|discriminate].
  apply N.eqb_eq in E; subst x. intros _. now apply N.eqb_neq.
Qed.

(** What a glob of [/dev/<text>*] finds. *)
Lemma glob_dev_prefix (c : N) (p : str) (w : world) :
  c <> dot ->
  Forall (fun c => c <> star /\ c <> question_mark) (c :: p) ->
  fst (glob (dev_dir ++ (c :: p) ++ [star]) w)
  = map (app dev_dir) (filter (has_prefix (c :: p)) (dev_entries w)).
Proof.
  intros Hc Hp. unfold glob. cbn [fst].
  replace (strip_prefix dev_dir (dev_dir ++ (c :: p) ++ [star]))
    with (Some ((c :: p) ++ [star])) by reflexivity.
  f_equal. apply filter_ext. intros name.
  rewrite (fnmatch_literal_star (c :: p) name Hp).
  replace (is_hidden ((c :: p) ++ [star])) with false
    by (symmetry; now apply N.eqb_neq).
  destruct (has_prefix (c :: p) name) eqn:E.
  - now rewrite (has_prefix_not_hidden p c name Hc E).
  - apply andb_false_r.
Qed.

Lemma glob_usbmodem w :
  fst (glob usbmodem_pattern w)
  = map (app dev_dir) (filter (has_prefix (lit "cu.usbmodem")) (dev_entries w)).
Proof.
  apply (glob_dev_prefix 99%N (lit "u.usbmodem") w); [discriminate|].
  repeat constructor; discriminate.
Qed.

Lemma glob_usbserial w :
  fst (glob usbserial_pattern w)
  = map (app dev_dir) (filter (has_prefix (lit "cu.usbserial")) (dev_entries w)).
Proof.
  apply (glob_dev_prefix 99%N (lit "u.usbserial") w); [discriminate|].
  repeat constructor; discriminate.
Qed.

(** A glob reads the directory and changes nothing but the log. *)
Lemma glob_same_entries pattern w w' :
  dev_entries w = dev_entries w' ->
  fst (glob pattern w) = fst (glob pattern w').
Proof. intros H. unfold glob. simpl. now rewrite H. Qed.

Lemma find_arduino_port_unfold w :
  find_arduino_port w =
  match fst (glob usbmodem_pattern w) with
  | c :: _ => (Some c, snd (glob usbmodem_pattern w))
  | [] =>
      match fst (glob usbserial_pattern w) with
      | c :: _ => (Some c, snd (glob usbserial_pattern (snd (glob usbmodem_pattern w))))
      | [] => (None, snd (glob usbserial_pattern (snd (glob usbmodem_pattern w))))
      end
  end.
Proof.
  unfold find_arduino_port.
  rewrite (glob_same_entries usbserial_pattern w (snd (glob usbmodem_pattern w)))
    by reflexivity.
  destruct (glob usbmodem_pattern w) as [c1 w1]; simpl.
  destruct c1; [|reflexivity].
  destruct (glob usbserial_pattern w1) as [c2 w2]; simpl.
  destruct c2; reflexivity.
Qed.

Lemma find_arduino_port_keeps_host w :
  dev_entries (snd (find_arduino_port w)) = dev_entries w /\
  serial_opens (snd (find_arduino_port w)) = serial_opens w.
Proof.
  rewrite find_arduino_port_unfold.
  destruct (fst (glob usbmodem_pattern w)); [|now split].
  destruct (fst (glob usbserial_pattern w)); now split.
Qed.

(** A port that was found is a non-empty path. *)
Lemma find_arduino_port_truthy w port :
  fst (find_arduino_port w) = Some port -> truthy port = true.
Proof.
  rewrite find_arduino_port_unfold, glob_usbmodem, glob_usbserial.
  destruct (filter _ (dev_entries w)); simpl.
  - destruct (filter _ (dev_entries w)); simpl; [discriminate|].
    now intros [= <-].
  - now intros [= <-].
Qed.

(** C7. The port locator globs the two patterns in a fixed order, the
    USB-modem one first and the USB-serial one only when the first found
    nothing, each at most once; it returns the first path found for the
    first pattern that found any, and the not-found value when neither
    found a path. *)
Theorem find_arduino_port_first_match (w : world) :
  let modem := fst (glob usbmodem_pattern w) in
  let serial := fst (glob usbserial_pattern w) in
  modem = map (app (lit "/dev/"))
            (filter (has_prefix (lit "cu.usbmodem")) (dev_entries w)) /\
  serial = map (app (lit "/dev/"))
             (filter (has_prefix (lit "cu.usbserial")) (dev_entries w)) /\
  fst (find_arduino_port w)
    = match modem, serial with
      | path :: _, _ => Some path
      | [], path :: _ => Some path
      | [], [] => None
      end /\
  scans (snd (find_arduino_port w))
    = scans w ++ match modem with
                 | _ :: _ => [lit "/dev/cu.usbmodem*"]
                 | [] => [lit "/dev/cu.usbmodem*"; lit "/dev/cu.usbserial*"]
                 end.
Proof.
  cbv zeta. split; [apply glob_usbmodem|]. split; [apply glob_usbserial|].
  rewrite find_arduino_port_unfold.
  destruct (fst (glob usbmodem_pattern w)); [|split; reflexivity].
  destruct (fst (glob usbserial_pattern w)); split; simpl;
    try reflexivity; now rewrite <- app_assoc.
Qed.

(** C8. Port discovery depends on the directory listing alone: two hosts
    with the same listing give the same answer, a run leaves the listing
    as it was, and so a second run right after the first returns the same
    path, or the same not-found value. *)
Theorem find_arduino_port_deterministic (w1 w2 : world) :
  dev_entries w1 = dev_entries w2 ->
  fst (find_arduino_port w1) = fst (find_arduino_port w2) /\
  dev_entries (snd (find_arduino_port w1)) = dev_entries w1 /\
  fst (find_arduino_port (snd (find_arduino_port w1)))
    = fst (find_arduino_port w1).
Proof.
  assert (same : forall a b, dev_entries a = dev_entries b ->
                 fst (find_arduino_port a) = fst (find_arduino_port b)).
  { intros a b H. rewrite !find_arduino_port_unfold.
    rewrite (glob_same_entries usbmodem_pattern a b H).
    rewrite (glob_same_entries usbserial_pattern a b H).
    destruct (fst (glob usbmodem_pattern b)); [|reflexivity].
    destruct (fst (glob usbserial_pattern b)); reflexivity. }
  intros H. split; [now apply same|].
  split; [apply find_arduino_port_keeps_host|].
  apply same, find_arduino_port_keeps_host.
Qed.

Lemma find_arduino_port_deterministic_witness :
  fst (find_arduino_port
         {| dev_entries := [lit "tty.Bluetooth"; lit "cu.usbserial-1420";
                            lit "cu.usbmodem14201"; lit "cu.usbmodem14101"];
            serial_opens := fun _ _ => true;
            scans := [lit "/dev/cu.usbmodem*"] |})
  = Some (lit "/dev/cu.usbmodem14201").
Proof.
  pose (w1 := {| dev_entries := [lit "tty.Bluetooth"; lit "cu.usbserial-1420";
                                 lit "cu.usbmodem14201"; lit "cu.usbmodem14101"];
                 serial_opens := fun _ _ => true;
                 scans := [] |}).
  pose (w2 := snd (find_arduino_port w1)).
  destruct (find_arduino_port_deterministic w1 w2 eq_refl) as (H & _ & _).
  exact (eq_trans (eq_sym H) eq_refl).
Defined.

(* ===================================================================== *)
(** ** Decoding the bytes of a line *)
(* ===================================================================== *)

Lemma subseq_nil_l bs : subseq [] bs.
Proof. induction bs; constructor; assumption. Qed.

Lemma subseq_app_keep buf kept bs :
  subseq kept bs -> subseq (buf ++ kept) (buf ++ bs).
Proof. intros H. induction buf; simpl; [assumption | now constructor]. Qed.

Lemma subseq_app_drop buf kept bs :
  subseq kept bs -> subseq kept (buf ++ bs).
Proof. intros H. induction buf; simpl; [assumption | now constructor]. Qed.

(** With [Ignore] the decoder always returns a text. *)
Lemma utf8_decode_ignore_total bs : forall st,
  exists s, utf8_decode Ignore st bs = Some s.
Proof.
  induction bs as [|b bs IH]; intros st.
  - destruct st; simpl; eauto.
  - assert (start : exists s,
      match utf8_start (Byte.to_N b) with
      | Emit c => option_map (cons c) (utf8_decode Ignore None bs)
      | Pend p => utf8_decode Ignore (Some p) bs
      | Invalid => utf8_decode Ignore None bs
      end = Some s).
    { destruct (utf8_start (Byte.to_N b)) as [c|p|]; auto.
      destruct (IH None) as [s ->]; simpl; eauto. }
    cbn [utf8_decode]. destruct st as [p|]; [|exact start].
    destruct (utf8_continue p (Byte.to_N b)) as [c|p'|]; auto.
    destruct (IH None) as [s ->]; simpl; eauto.
Qed.

(** Where the strict decoder succeeds, ignoring errors changes nothing. *)
Lemma utf8_decode_strict_ignore bs : forall st s,
  utf8_decode Strict st bs = Some s -> utf8_decode Ignore st bs = Some s.
Proof.
  induction bs as [|b bs IH]; intros st s.
  - destruct st; simpl; congruence.
  - assert (start :
      match utf8_start (Byte.to_N b) with
      | Emit c => option_map (cons c) (utf8_decode Strict None bs)
      | Pend p => utf8_decode Strict (Some p) bs
      | Invalid => None
      end = Some s ->
      match utf8_start (Byte.to_N b) with
      | Emit c => option_map (cons c) (utf8_decode Ignore None bs)
      | Pend p => utf8_decode Ignore (Some p) bs
      | Invalid => utf8_decode Ignore None bs
      end = Some s).
    { destruct (utf8_start (Byte.to_N b)) as [c|p|]; auto; [|discriminate].
      destruct (utf8_decode Strict None bs) as [s'|] eqn:E; [|discriminate].
      now rewrite (IH None s' E). }
    cbn [utf8_decode]. destruct st as [p|]; [|exact start].
    destruct (utf8_continue p (Byte.to_N b)) as [c|p'|]; auto; [|discriminate].
    destruct (utf8_decode Strict None bs) as [s'|] eqn:E; [|discriminate].
    now rewrite (IH None s' E).
Qed.

(** What the lenient decoder returns is the strict decoding of the input
    with some bytes deleted.  [buf] holds the bytes of the sequence under
    way in state [st]. *)
Lemma utf8_decode_ignore_subseq bs : forall st buf,
  (forall rest,
     utf8_decode Strict None (buf ++ rest) = utf8_decode Strict st rest) ->
  exists kept s,
    utf8_decode Ignore st bs = Some s /\
    subseq kept (buf ++ bs) /\
    utf8_decode Strict None kept = Some s.
Proof.
  induction bs as [|b bs IH]; intros st buf Hbuf.
  - exists [], []. repeat split.
    + now destruct st.
    + apply subseq_nil_l.
  - assert (start : exists kept s,
      match utf8_start (Byte.to_N b) with
      | Emit c => option_map (cons c) (utf8_decode Ignore None bs)
      | Pend p => utf8_decode Ignore (Some p) bs
      | Invalid => utf8_decode Ignore None bs
      end = Some s /\
      subseq kept (b :: bs) /\
      utf8_decode Strict None kept = Some s).
    { destruct (utf8_start (Byte.to_N b)) as [c|p|] eqn:Es.
      - destruct (IH None [] (fun _ => eq_refl)) as (kept & s & E & Hsub & Hs).
        exists (b :: kept), (c :: s). rewrite E. repeat split.
        + now constructor.
        + cbn [utf8_decode]. now rewrite Es, Hs.
      - destruct (IH (Some p) [b]) as (kept & s & E & Hsub & Hs).
        { intros rest. cbn [app utf8_decode]. now rewrite Es. }
        exists kept, s. auto.
      - destruct (IH None [] (fun _ => eq_refl)) as (kept & s & E & Hsub & Hs).
        exists kept, s. repeat split; auto. now constructor. }
    assert (restart : exists kept s,
      match utf8_start (Byte.to_N b) with
      | Emit c => option_map (cons c) (utf8_decode Ignore None bs)
      | Pend p => utf8_decode Ignore (Some p) bs
      | Invalid => utf8_decode Ignore None bs
      end = Some s /\
      subseq kept (buf ++ b :: bs) /\
      utf8_decode Strict None kept = Some s).
    { destruct start as (kept & s & E & Hsub & Hs).
      exists kept, s. auto using subseq_app_drop. }
    cbn [utf8_decode]. destruct st as [p|]; [|exact restart].
    destruct (utf8_continue p (Byte.to_N b)) as [c|p'|] eqn:Ec; auto.
    + destruct (IH None [] (fun _ => eq_refl)) as (kept & s & E & Hsub & Hs).
      exists (buf ++ b :: kept), (c :: s). rewrite E. repeat split.
      * apply subseq_app_keep. now constructor.
      * rewrite Hbuf. cbn [utf8_decode]. now rewrite Ec, Hs.
    + destruct (IH (Some p') (buf ++ [b])) as (kept & s & E & Hsub & Hs).
      { intros rest. rewrite <- app_assoc. cbn [app]. rewrite Hbuf.
        cbn [utf8_decode]. now rewrite Ec. }
      rewrite <- app_assoc in Hsub. exists kept, s. auto.
Qed.

Lemma bytes_decode_ignore_total raw :
  bytes_decode Ignore raw = Some (received_text raw).
Proof.
  unfold received_text.
  destruct (utf8_decode_ignore_total raw None) as [s E].
  unfold bytes_decode. now rewrite E.
Qed.

Example decode_two_bytes :
  bytes_decode Strict [xc3; xa9] = Some [0xE9%N].
Proof. reflexivity. Qed.

Example decode_three_bytes :
  bytes_decode Strict [xe2; x82; xac] = Some [0x20AC%N].
Proof. reflexivity. Qed.

Example decode_four_bytes :
  bytes_decode Strict [xf0; x9f; x98; x80] = Some [0x1F600%N].
Proof. reflexivity. Qed.

Example decode_surrogate_refused :
  bytes_decode Strict [xed; xa0; x80] = None /\
  bytes_decode Ignore [xed; xa0; x80] = Some [].
Proof. split; reflexivity. Qed.

Example decode_overlong_refused :
  bytes_decode Strict [xc0; x80] = None /\
  bytes_decode Strict [xe0; x80; x80] = None /\
  bytes_decode Strict [xf4; x90; x80; x80] = None.
Proof. repeat split. Qed.

Example decode_resumes_at_breaking_byte :
  bytes_decode Ignore [xe1; x80; xe1; x80; x80] = Some [0x1000%N] /\
  bytes_decode Ignore [xf1; x80; xc3; xa9] = Some [0xE9%N] /\
  bytes_decode Ignore [xe2; x82; x61] = Some [0x61%N] /\
  bytes_decode Ignore [x61; xc3] = Some [0x61%N].
Proof. repeat split. Qed.

(** *** The decoder against the encoder *)

Section RoundTrip.
Local Open Scope N_scope.

Lemma to_N_byte_of_N n : n < 256 -> Byte.to_N (byte_of_N n) = n.
Proof.
  intros H. unfold byte_of_N. destruct (Byte.of_N n) as [b|] eqn:E.
  - now apply Byte.to_of_N.
  - apply Byte.of_N_None_iff in E. lia.
Qed.

Lemma lor_high_low a b n : b < 2 ^ n -> N.lor (a * 2 ^ n) b = a * 2 ^ n + b.
Proof.
  intros H.
  assert (Hz : N.land (a * 2 ^ n) b = 0).
  { apply N.bits_inj_0. intros i. rewrite N.land_spec.
    destruct (N.lt_ge_cases i n) as [Hi|Hi].
    - now rewrite N.mul_pow2_bits_low.
    - rewrite <- (N.mod_small b (2 ^ n) H), N.mod_pow2_bits_high by assumption.
      apply andb_false_r. }
  now rewrite <- N.lxor_lor, <- N.add_nocarry_lxor.
Qed.

(** Linear arithmetic with division and remainder by constants. *)
Ltac divlia := zify; Z.to_euclidean_division_equations; lia.

Lemma continuation_byte_value c shift :
  continuation_byte c shift = 128 + (c / 2 ^ shift) mod 64.
Proof.
  unfold continuation_byte.
  change 0x3F with (N.ones 6). rewrite N.land_ones, N.shiftr_div_pow2.
  change 0x80 with (2 * 2 ^ 6). apply lor_high_low.
  apply N.mod_lt. discriminate.
Qed.

Lemma lead_byte_value tag c shift n :
  c / 2 ^ shift < 2 ^ n ->
  N.lor (tag * 2 ^ n) (N.shiftr c shift) = tag * 2 ^ n + c / 2 ^ shift.
Proof. intros H. rewrite N.shiftr_div_pow2. now apply lor_high_low. Qed.

Lemma decoder_step_value a b :
  N.lor (N.shiftl a 6) (N.land b 0x3F) = a * 64 + b mod 64.
Proof.
  change 0x3F with (N.ones 6). rewrite N.land_ones, N.shiftl_mul_pow2.
  apply lor_high_low. apply N.mod_lt. discriminate.
Qed.

Lemma utf8_start_value b :
  utf8_start b =
  if b <? 0x80 then Emit b
  else if b <? 0xC2 then Invalid
  else if b <? 0xE0 then
    Pend {| acc := b mod 32; lo := 0x80; hi := 0xBF; more := 0 |}
  else if b <? 0xF0 then
    Pend {| acc := b mod 16;
            lo := if b =? 0xE0 then 0xA0 else 0x80;
            hi := if b =? 0xED then 0x9F else 0xBF;
            more := 1 |}
  else if b <? 0xF5 then
    Pend {| acc := b mod 8;
            lo := if b =? 0xF0 then 0x90 else 0x80;
            hi := if b =? 0xF4 then 0x8F else 0xBF;
            more := 2 |}
  else Invalid.
Proof.
  unfold utf8_start.
  change 0x1F with (N.ones 5). change 0x0F with (N.ones 4).
  change 0x07 with (N.ones 3). now rewrite !N.land_ones.
Qed.

Lemma utf8_continue_value p b :
  utf8_continue p b =
  if (lo p <=? b) && (b <=? hi p) then
    match more p with
    | O => Emit (acc p * 64 + b mod 64)
    | S k => Pend {| acc := acc p * 64 + b mod 64;
                     lo := 0x80; hi := 0xBF; more := k |}
    end
  else Invalid.
Proof. unfold utf8_continue. now rewrite decoder_step_value. Qed.

Lemma utf8_decode_start e b bs :
  utf8_decode e None (byte_of_N b :: bs) =
  match utf8_start (Byte.to_N (byte_of_N b)) with
  | Emit c => option_map (cons c) (utf8_decode e None bs)
  | Pend p => utf8_decode e (Some p) bs
  | Invalid => match e with Strict => None | Ignore => utf8_decode e None bs end
  end.
Proof. reflexivity. Qed.

Lemma utf8_decode_continue e p b bs :
  (lo p <=? b) && (b <=? hi p) = true -> b < 256 ->
  utf8_decode e (Some p) (byte_of_N b :: bs) =
  match more p with
  | O => option_map (cons (acc p * 64 + b mod 64)) (utf8_decode e None bs)
  | S k => utf8_decode e
             (Some {| acc := acc p * 64 + b mod 64;
                      lo := 0x80; hi := 0xBF; more := k |}) bs
  end.
Proof.
  intros H Hb. cbn [utf8_decode].
  rewrite (to_N_byte_of_N b Hb), utf8_continue_value, H.
  now destruct (more p).
Qed.

Ltac by_cases :=
  repeat match goal with
         | |- context [N.ltb ?a ?b] => destruct (N.ltb_spec a b)
         | |- context [N.leb ?a ?b] => destruct (N.leb_spec a b)
         | |- context [N.eqb ?a ?b] => destruct (N.eqb_spec a b)
         end.

Lemma decode_encode_char e c rest :
  is_scalar c = true ->
  utf8_decode e None (utf8_encode_char c ++ rest)
  = option_map (cons c) (utf8_decode e None rest).
Proof.
  unfold is_scalar, utf8_encode_char. intros Hc.
  rewrite !continuation_byte_value.
  change (2 ^ 0) with 1; change (2 ^ 6) with 64; change (2 ^ 12) with 4096.
  rewrite N.div_1_r.
  destruct (N.ltb_spec c 0x80) as [H1|H1];
    [|destruct (N.ltb_spec c 0x800) as [H2|H2];
      [|destruct (N.ltb_spec c 0x10000) as [H3|H3]]].
  - cbn [map app]. rewrite utf8_decode_start, to_N_byte_of_N by divlia.
    rewrite utf8_start_value.
    destruct (N.ltb_spec c 0x80); [reflexivity | divlia].
  - change 0xC0 with (6 * 2 ^ 5).
    rewrite (lead_byte_value 6 c 6 5) by (change (2 ^ 6) with 64; change (2 ^ 5) with 32; divlia).
    change (2 ^ 6) with 64; change (2 ^ 5) with 32.
    cbn [map app]. rewrite utf8_decode_start, to_N_byte_of_N by divlia.
    rewrite utf8_start_value.
    destruct (N.ltb_spec (6 * 32 + c / 64) 0x80); [divlia|].
    destruct (N.ltb_spec (6 * 32 + c / 64) 0xC2); [divlia|].
    destruct (N.ltb_spec (6 * 32 + c / 64) 0xE0); [|divlia].
    rewrite utf8_decode_continue; cbn [lo hi acc more].
    + f_equal. f_equal. divlia.
    + apply andb_true_iff. split; apply N.leb_le; divlia.
    + divlia.
  - change 0xE0 with (14 * 2 ^ 4).
    rewrite (lead_byte_value 14 c 12 4)
      by (change (2 ^ 12) with 4096; change (2 ^ 4) with 16; divlia).
    change (2 ^ 12) with 4096; change (2 ^ 4) with 16.
    cbn [map app]. rewrite utf8_decode_start, to_N_byte_of_N by divlia.
    rewrite utf8_start_value.
    destruct (N.ltb_spec (14 * 16 + c / 4096) 0x80); [divlia|].
    destruct (N.ltb_spec (14 * 16 + c / 4096) 0xC2); [divlia|].
    destruct (N.ltb_spec (14 * 16 + c / 4096) 0xE0); [divlia|].
    destruct (N.ltb_spec (14 * 16 + c / 4096) 0xF0); [|divlia].
    apply orb_true_iff in Hc.
    rewrite utf8_decode_continue; cbn [lo hi acc more];
      [rewrite utf8_decode_continue; cbn [lo hi acc more] | |].
    + f_equal. f_equal. divlia.
    + apply andb_true_iff. split; apply N.leb_le; divlia.
    + divlia.
    + apply andb_true_iff. split; apply N.leb_le; by_cases; try divlia.
      destruct Hc as [Hc|Hc]; [apply N.ltb_lt in Hc; divlia|].
      apply andb_true_iff in Hc as [Hc _]. apply N.ltb_lt in Hc. divlia.
    + divlia.
  - change 0xF0 with (30 * 2 ^ 3).
    apply orb_true_iff in Hc.
    assert (Hmax : c < 0x110000).
    { destruct Hc as [Hc|Hc]; [apply N.ltb_lt in Hc; divlia|].
      apply andb_true_iff in Hc as [_ Hc]. now apply N.ltb_lt in Hc. }
    rewrite (lead_byte_value 30 c 18 3)
      by (change (2 ^ 18) with 262144; change (2 ^ 3) with 8; divlia).
    change (2 ^ 18) with 262144; change (2 ^ 3) with 8.
    cbn [map app]. rewrite utf8_decode_start, to_N_byte_of_N by divlia.
    rewrite utf8_start_value.
    destruct (N.ltb_spec (30 * 8 + c / 262144) 0x80); [divlia|].
    destruct (N.ltb_spec (30 * 8 + c / 262144) 0xC2); [divlia|].
    destruct (N.ltb_spec (30 * 8 + c / 262144) 0xE0); [divlia|].
    destruct (N.ltb_spec (30 * 8 + c / 262144) 0xF0); [divlia|].
    destruct (N.ltb_spec (30 * 8 + c / 262144) 0xF5); [|divlia].
    rewrite utf8_decode_continue; cbn [lo hi acc more];
      [rewrite utf8_decode_continue; cbn [lo hi acc more];
       [rewrite utf8_decode_continue; cbn [lo hi acc more] | |] | |].
    + f_equal. f_equal. divlia.
    + apply andb_true_iff. split; apply N.leb_le; divlia.
    + divlia.
    + apply andb_true_iff. split; apply N.leb_le; divlia.
    + divlia.
    + apply andb_true_iff. split; apply N.leb_le; by_cases; divlia.
    + divlia.
Qed.

End RoundTrip.

(** A text of scalar values, encoded, decodes to itself. *)
Lemma decode_encode e s :
  forallb is_scalar s = true ->
  utf8_decode e None (str_encode s) = Some s.
Proof.
  induction s as [|c s IH]; [reflexivity|].
  cbn [forallb str_encode flat_map]. intros H.
  apply andb_true_iff in H as [Hc Hs].
  fold (str_encode s). rewrite (decode_encode_char e c _ Hc), (IH Hs).
  reflexivity.
Qed.

(* ===================================================================== *)
(** ** Trimming *)
(* ===================================================================== *)

Lemma lstrip_head s c t : lstrip s = c :: t -> isspace c = false.
Proof.
  induction s as [|x s IH]; simpl; [discriminate|].
  destruct (isspace x) eqn:E; auto. intros [= <- <-]. exact E.
Qed.

Lemma lstrip_idempotent s : lstrip (lstrip s) = lstrip s.
Proof.
  induction s as [|x s IH]; simpl; auto.
  destruct (isspace x) eqn:E; auto. simpl. now rewrite E.
Qed.

Lemma lstrip_snoc l c :
  isspace c = false -> exists m, lstrip (l ++ [c]) = m ++ [c].
Proof.
  intros Hc. induction l as [|x l IH]; simpl.
  - exists []. now rewrite Hc.
  - destruct (isspace x); auto. now exists (x :: l).
Qed.

Lemma rstrip_idempotent s : rstrip (rstrip s) = rstrip s.
Proof. unfold rstrip. now rewrite rev_involutive, lstrip_idempotent. Qed.

Lemma strip_idempotent s : strip (strip s) = strip s.
Proof.
  unfold strip. destruct (lstrip s) as [|c t] eqn:E; [reflexivity|].
  pose proof (lstrip_head s c t E) as Hc.
  assert (H : exists r, rstrip (c :: t) = c :: r).
  { unfold rstrip. simpl rev.
    destruct (lstrip_snoc (rev t) c Hc) as [m ->].
    rewrite rev_app_distr. simpl. eauto. }
  destruct H as [r Hr]. rewrite Hr. simpl lstrip. rewrite Hc.
  rewrite <- Hr. apply rstrip_idempotent.
Qed.

(* ===================================================================== *)
(** ** The read loop *)
(* ===================================================================== *)

Section LoopFacts.
Variable py : runtime.

Lemma process_line_strip text held :
  process_line py (strip text) held = process_line py text held.
Proof. unfold process_line. now rewrite strip_idempotent. Qed.

Lemma process_line_blank text held :
  truthy (strip text) = false -> process_line py text held = (held, []).
Proof. intros H. unfold process_line. now rewrite H. Qed.

(** One received line: the loop hands its text to [process_line] and
    reads on. *)
Lemma read_loop_line raw reads held :
  read_loop py (ReadLine raw :: reads) held =
  let '(held', acts) := process_line py (received_text raw) held in
  let '(ending, held'', acts') := read_loop py reads held' in
  (ending, held'', acts ++ acts').
Proof.
  cbn [read_loop]. rewrite bytes_decode_ignore_total.
  destruct raw as [|b raw].
  - change (received_text []) with (@nil N).
    change (process_line py [] held) with (held, @nil key_action).
    cbv beta iota zeta.
    destruct (read_loop py reads held) as [[? ?] ?]; reflexivity.
  - destruct (truthy (strip (received_text (b :: raw)))) eqn:E.
    + now rewrite process_line_strip.
    + rewrite (process_line_blank _ held E). cbv beta iota zeta.
      destruct (read_loop py reads held) as [[? ?] ?]; reflexivity.
Qed.

(** A line during which Ctrl+C arrives: its key action is done, the
    held-state stays as it was, and the loop is left. *)
Lemma read_loop_interrupted_line raw reads held :
  read_loop py (InterruptedLine raw :: reads) held =
  (Raised KeyboardInterrupt, held,
   snd (process_line py (received_text raw) held)).
Proof.
  cbn [read_loop]. rewrite bytes_decode_ignore_total.
  destruct raw as [|b raw].
  - reflexivity.
  - destruct (truthy (strip (received_text (b :: raw)))) eqn:E.
    + now rewrite process_line_strip.
    + now rewrite (process_line_blank _ held E).
Qed.

Lemma read_loop_lines raws : forall tail held,
  read_loop py (map ReadLine raws ++ tail) held =
  let '(held', acts) := process_lines py (map received_text raws) held in
  let '(ending, held'', acts') := read_loop py tail held' in
  (ending, held'', acts ++ acts').
Proof.
  induction raws as [|raw raws IH]; intros tail held.
  - simpl. destruct (read_loop py tail held) as [[? ?] ?]; reflexivity.
  - cbn [map app process_lines]. rewrite read_loop_line.
    destruct (process_line py (received_text raw) held) as [held1 acts1].
    rewrite IH.
    destruct (process_lines py (map received_text raws) held1)
      as [held2 acts2].
    destruct (read_loop py tail held2) as [[ending held3] acts3].
    now rewrite app_assoc.
Qed.

Lemma read_loop_keeps_ok reads : forall held,
  held_keys_ok held -> held_keys_ok (snd (fst (read_loop py reads held))).
Proof.
  induction reads as [|[raw| | |raw] reads IH]; intros held Hok; auto;
    [|now rewrite read_loop_interrupted_line].
  rewrite read_loop_line.
  pose proof (process_line_keeps_ok py (received_text raw) held Hok) as H1.
  destruct (process_line py (received_text raw) held) as [held1 acts1].
  specialize (IH held1 H1).
  destruct (read_loop py reads held1) as [[? ?] ?]. exact IH.
Qed.

(** The loop ends only by Ctrl+C or by a failure of the device. *)
Lemma read_loop_raises reads : forall held e,
  fst (fst (read_loop py reads held)) = Raised e ->
  e = KeyboardInterrupt \/ e = SerialException.
Proof.
  induction reads as [|[raw| | |raw] reads IH]; intros held e.
  - discriminate.
  - rewrite read_loop_line.
    destruct (process_line py (received_text raw) held) as [held1 acts1].
    specialize (IH held1 e).
    destruct (read_loop py reads held1) as [[? ?] ?]. exact IH.
  - intros [= <-]. now left.
  - intros [= <-]. now right.
  - rewrite read_loop_interrupted_line. intros [= <-]. now left.
Qed.

Lemma main_unfold w reads :
  main py w reads =
  match fst (find_arduino_port w) with
  | None => (SysExit 1, [])
  | Some port =>
      if negb (serial_opens w port BAUD) then (SysExit 1, [])
      else
        match read_loop py reads [] with
        | (Blocked, held, acts) => (StillRunning held, acts)
        | (Raised KeyboardInterrupt, held, acts) =>
            (Returned, acts ++ release_held_keys held)
        | (Raised e, held, acts) =>
            (Uncaught e, acts ++ release_held_keys held)
        end
  end.
Proof.
  unfold main.
  pose proof (find_arduino_port_truthy w) as Ht.
  destruct (find_arduino_port_keeps_host w) as [_ Ho].
  destruct (find_arduino_port w) as [[port|] w']; [|reflexivity].
  simpl in *. rewrite (Ht port eq_refl), Ho. simpl.
  destruct (serial_opens w port BAUD); reflexivity.
Qed.

End LoopFacts.

Lemma held_keys_ok_empty : held_keys_ok [].
Proof. split; [constructor | intros b []]. Qed.

(* ===================================================================== *)
(** ** Cleanup *)
(* ===================================================================== *)


Lemma release_held_keys_cons b v items :
  release_held_keys ((b, v) :: items)
  = release_held_keys [(b, v)] ++ release_held_keys items.
Proof. simpl. now rewrite app_nil_r. Qed.

Lemma release_entry b v k :
  dict_get BUTTON_TO_KEY b = Some k ->
  release_held_keys [(b, v)] = if v then [Release k] else [].
Proof.
  intros Hk. cbn [release_held_keys].
  rewrite Hk, (button_key_truthy b k Hk).
  now destruct v.
Qed.

(** An entry releases no key but the one its button is mapped to. *)
Lemma release_entry_other b' v b k :
  dict_get BUTTON_TO_KEY b = Some k -> b' <> b ->
  count_occ key_action_eq_dec (release_held_keys [(b', v)]) (Release k) = 0.
Proof.
  intros Hk Hne. cbn [release_held_keys]. destruct v; [|reflexivity].
  destruct (dict_get BUTTON_TO_KEY b') as [k'|] eqn:Hk'; [|reflexivity].
  destruct (truthy k'); [|reflexivity].
  apply count_occ_cons_neq. intros [= ->].
  elim Hne. exact (button_injective b' b k Hk' Hk).
Qed.

Lemma release_count_absent items b k :
  dict_get BUTTON_TO_KEY b = Some k -> ~ In b (keys items) ->
  count_occ key_action_eq_dec (release_held_keys items) (Release k) = 0.
Proof.
  intros Hk. induction items as [|[b' v] items IH]; intros Hnin; auto.
  rewrite release_held_keys_cons, count_occ_app.
  simpl in Hnin.
  rewrite (release_entry_other b' v b k Hk), IH; tauto.
Qed.


Lemma release_no_press items k : ~ In (Press k) (release_held_keys items).
Proof.
  induction items as [|[b v] items IH]; cbn [release_held_keys]; auto.
  rewrite in_app_iff. intros [H|H]; auto.
  destruct v; [|easy].
  destruct (dict_get BUTTON_TO_KEY b) as [k'|]; [|easy].
  destruct (truthy k'); [|easy].
  now destruct H.
Qed.

(** Every release of the cleanup is for a button that is held. *)
Lemma release_only_held items k :
  In (Release k) (release_held_keys items) ->
  exists b, In (b, true) items /\ dict_get BUTTON_TO_KEY b = Some k.
Proof.
  induction items as [|[b v] items IH]; cbn [release_held_keys]; [easy|].
  rewrite in_app_iff. intros [H|H].
  - destruct v; [|easy].
    destruct (dict_get BUTTON_TO_KEY b) as [k'|] eqn:Hk; [|easy].
    destruct (truthy k'); [|easy].
    destruct H as [[= ->]|[]]. exists b. split; [now left | assumption].
  - destruct (IH H) as (b0 & Hin & Hk). exists b0. split; [now right | assumption].
Qed.

Lemma release_length items :
  held_keys_ok items ->
  List.length (release_held_keys items)
  = List.length (filter (fun item => snd item) items).
Proof.
  intros [_ Hin]. induction items as [|[b v] items IH]; auto.
  rewrite release_held_keys_cons, length_app.
  destruct (Hin b (or_introl eq_refl)) as [k Hk].
  rewrite (release_entry b v k Hk), IH.
  - now destruct v.
  - intros b0 H0. apply Hin. now right.
Qed.


(* ===================================================================== *)
(** ** Claims about the whole program *)
(* ===================================================================== *)





(** C9. Whatever the read loop has received, every button stored in the
    held-state is a button of the table with a non-empty key; so in the
    cleanup the lookup of a held button always finds its key, and the
    cleanup does as many releases as there are held entries. *)
Theorem held_keys_are_buttons (py : runtime) (reads : list read_event)
  (ending : loop_end) (held : dict bool) (acts : list key_action) :
  read_loop py reads [] = (ending, held, acts) ->
  (forall b, In b (keys held) ->
     exists k, dict_get BUTTON_TO_KEY b = Some k /\ truthy k = true) /\
  Forall (fun item =>
            snd item = true ->
            exists k, dict_get BUTTON_TO_KEY (fst item) = Some k /\
                      release_held_keys [item] = [Release k]) held /\
  List.length (release_held_keys held)
  = List.length (filter (fun item => snd item) held).
Proof.
  intros E.
  pose proof (read_loop_keeps_ok py reads [] held_keys_ok_empty) as Hok.
  rewrite E in Hok. simpl in Hok.
  split; [|split].
  - intros b Hb. destruct Hok as [_ Hin]. destruct (Hin b Hb) as [k Hk].
    exists k. split; [exact Hk | exact (button_key_truthy b k Hk)].
  - apply Forall_forall. intros [b v] Hin Hv. simpl in Hv; subst v.
    destruct Hok as [_ Hb].
    destruct (Hb b) as [k Hk].
    { change b with (fst (b, true)). now apply in_map. }
    exists k. split; [exact Hk|]. now rewrite (release_entry b true k Hk).
  - now apply release_length.
Qed.

Lemma held_keys_are_buttons_witness :
  List.length
    (release_held_keys [(lit "B2", true); (lit "B1", false); (lit "B4", true)])
  = 2.
Proof.
  exact (proj2 (proj2 (held_keys_are_buttons ascii_runtime
    (map (fun l => ReadLine (list_byte_of_string l))
       ["B9:1"; "B2:1"; "B1:1"; "B4:1"; "B1:0"; "B1:x"]%string
     ++ [ReadFailure])
    (Raised SerialException)
    [(lit "B2", true); (lit "B1", false); (lit "B4", true)]
    [Press (lit "a"); Press (lit "w"); Press (lit "d"); Release (lit "w")]
    eq_refl))).
Defined.

Example garbage_before_a_line :
  received_text ([xff; xed; xa0; x80; xc3] ++ list_byte_of_string "B1:1")
  = lit "B1:1".
Proof. reflexivity. Qed.

(* ===================================================================== *)
(** * Further properties of the code *)
(* ===================================================================== *)

(* ===================================================================== *)
(** ** Trimming and splitting *)
(* ===================================================================== *)

Lemma lstrip_all_space ws l :
  forallb isspace ws = true -> lstrip (ws ++ l) = lstrip l.
Proof.
  induction ws as [|c ws IH]; simpl; auto.
  intros H. apply andb_true_iff in H as [Hc Hws]. rewrite Hc. auto.
Qed.

Lemma lstrip_nil s : lstrip s = [] -> forallb isspace s = true.
Proof.
  induction s as [|c s IH]; simpl; auto.
  destruct (isspace c); [auto | discriminate].
Qed.

Lemma lstrip_cons_app s c t x : lstrip s = c :: t -> lstrip (s ++ x) = c :: t ++ x.
Proof.
  induction s as [|a s IH]; simpl; [discriminate|].
  destruct (isspace a); auto. intros [= -> ->]. reflexivity.
Qed.

(** What [lstrip] removes is a run of blanks in front. *)
Lemma lstrip_decompose s :
  exists ws, forallb isspace ws = true /\ s = ws ++ lstrip s.
Proof.
  induction s as [|c s (ws & Hws & E)]; simpl.
  - now exists [].
  - destruct (isspace c) eqn:Hc.
    + exists (c :: ws). simpl. rewrite Hc, Hws. split; [reflexivity|].
      now rewrite <- E.
    + now exists [].
Qed.

Lemma forallb_rev {A} (f : A -> bool) l :
  forallb f (rev l) = forallb f l.
Proof.
  induction l as [|a l IH]; simpl; auto.
  rewrite forallb_app, IH. simpl. rewrite andb_true_r. apply andb_comm.
Qed.

Lemma rstrip_all_space ws l :
  forallb isspace ws = true -> rstrip (l ++ ws) = rstrip l.
Proof.
  intros H. unfold rstrip. rewrite rev_app_distr, lstrip_all_space; auto.
  now rewrite forallb_rev.
Qed.

Lemma rstrip_decompose s :
  exists ws, forallb isspace ws = true /\ s = rstrip s ++ ws.
Proof.
  destruct (lstrip_decompose (rev s)) as (ws & Hws & E).
  exists (rev ws). rewrite forallb_rev. split; [exact Hws|].
  unfold rstrip. rewrite <- rev_app_distr, <- E. now rewrite rev_involutive.
Qed.

(** The first character of a trimmed text is kept by [rstrip]. *)
Lemma rstrip_keeps_head c t :
  isspace c = false -> exists r, rstrip (c :: t) = c :: r.
Proof.
  intros Hc. unfold rstrip. simpl rev.
  destruct (lstrip_snoc (rev t) c Hc) as [m ->].
  rewrite rev_app_distr. simpl. eauto.
Qed.

Lemma strip_surrounded ws1 ws2 s :
  forallb isspace ws1 = true -> forallb isspace ws2 = true ->
  strip (ws1 ++ s ++ ws2) = strip s.
Proof.
  intros H1 H2. unfold strip. rewrite (lstrip_all_space ws1 _ H1).
  destruct (lstrip s) as [|c t] eqn:E.
  - apply lstrip_nil in E.
    rewrite <- (app_nil_r (s ++ ws2)), lstrip_all_space; [reflexivity|].
    rewrite forallb_app, E, H2. reflexivity.
  - rewrite (lstrip_cons_app s c t ws2 E).
    change (c :: t ++ ws2) with ((c :: t) ++ ws2).
    now apply rstrip_all_space.
Qed.

Lemma split_length sep s :
  List.length (split sep s) = S (count_occ N.eq_dec s sep).
Proof.
  induction s as [|c s IH]; [reflexivity|].
  cbn [split count_occ].
  destruct (N.eqb_spec c sep) as [->|Hne].
  - destruct (N.eq_dec sep sep); [|congruence]. simpl. now rewrite IH.
  - destruct (N.eq_dec c sep); [congruence|].
    rewrite <- IH. now destruct (split sep s).
Qed.

Lemma split_not_nil sep s : split sep s <> [].
Proof.
  intros H. pose proof (split_length sep s) as L. rewrite H in L. discriminate.
Qed.

Lemma join_split sep s : join sep (split sep s) = s.
Proof.
  induction s as [|c s IH]; [reflexivity|].
  cbn [split]. destruct (N.eqb_spec c sep) as [->|Hne].
  - pose proof (split_not_nil sep s) as Hn.
    destruct (split sep s) as [|p ps]; [congruence|].
    cbn [join app]. cbn [join] in IH. now rewrite IH.
  - pose proof (split_not_nil sep s) as Hn.
    destruct (split sep s) as [|p ps]; [congruence|].
    destruct ps as [|q ps]; cbn [join app] in *; now rewrite IH.
Qed.

Lemma split_fields_no_sep sep s :
  Forall (fun field => ~ In sep field) (split sep s).
Proof.
  induction s as [|c s IH]; cbn [split].
  - repeat constructor. intros [].
  - destruct (N.eqb_spec c sep) as [->|Hne].
    + constructor; [intros []|exact IH].
    + destruct (split sep s) as [|p ps]; [repeat constructor; intros [H|[]]; congruence|].
      inversion IH as [|? ? Hp Hps]; subst. constructor; [|exact Hps].
      intros [H|H]; [congruence | contradiction].
Qed.

Lemma split_join sep parts :
  parts <> [] -> Forall (fun field => ~ In sep field) parts ->
  split sep (join sep parts) = parts.
Proof.
  induction parts as [|p parts IH]; [congruence|]. intros _ Hall.
  inversion Hall as [|? ? Hp Hps]; subst.
  assert (Hfield : forall tail, split sep tail <> [] ->
            split sep (p ++ tail)
            = match split sep tail with
              | f :: fs => (p ++ f) :: fs
              | [] => []
              end).
  { clear IH Hall Hps. induction p as [|c p IHp]; intros tail Ht.
    - simpl. now destruct (split sep tail).
    - cbn [app split].
      assert (c <> sep) by (intros ->; apply Hp; now left).
      destruct (N.eqb_spec c sep); [congruence|].
      rewrite IHp; auto.
      + now destruct (split sep tail).
      + intros Hin. apply Hp. now right. }
  destruct parts as [|q parts].
  - cbn [join]. rewrite <- (app_nil_r p) at 1.
    rewrite Hfield; [simpl; now rewrite app_nil_r | discriminate].
  - change (join sep (p :: q :: parts)) with (p ++ sep :: join sep (q :: parts)).
    rewrite Hfield by apply split_not_nil.
    cbn [split]. rewrite N.eqb_refl. rewrite IH; auto; [|discriminate].
    now rewrite app_nil_r.
Qed.

(** X1. [strip] removes blanks at the two ends and nothing else: the text
    is the trimmed text between two runs of blanks, and a non-empty
    trimmed text neither starts nor ends with a blank. *)
Theorem strip_removes_only_outer_blanks (s : str) :
  (exists ws1 ws2,
     forallb isspace ws1 = true /\ forallb isspace ws2 = true /\
     s = ws1 ++ strip s ++ ws2) /\
  (forall c t, strip s = c :: t ->
     isspace c = false /\ isspace (last (c :: t) c) = false).
Proof.
  split.
  - destruct (lstrip_decompose s) as (ws1 & H1 & E1).
    destruct (rstrip_decompose (lstrip s)) as (ws2 & H2 & E2).
    exists ws1, ws2. split; [exact H1|]. split; [exact H2|].
    unfold strip. now rewrite <- E2.
  - unfold strip. intros c t E. split.
    + destruct (lstrip s) as [|c' t'] eqn:El; [discriminate|].
      pose proof (lstrip_head s c' t' El) as Hc'.
      destruct (rstrip_keeps_head c' t' Hc') as [r Hr].
      rewrite Hr in E. now injection E as <- _.
    + unfold rstrip in E.
      destruct (lstrip (rev (lstrip s))) as [|d y] eqn:Ey; [discriminate|].
      pose proof (lstrip_head _ d y Ey) as Hd.
      simpl rev in E. rewrite <- E. now rewrite last_last.
Qed.

(** X2. [split] and [join] are inverse to each other: joining the fields
    of a text with the separator gives the text back, the fields hold no
    separator and are one more than the separators of the text, and
    splitting the join of separator-free fields gives these fields. *)
Theorem split_join_round_trip (sep : N) (s : str) (fields : list str) :
  fields <> [] ->
  Forall (fun field => ~ In sep field) fields ->
  join sep (split sep s) = s /\
  Forall (fun field => ~ In sep field) (split sep s) /\
  List.length (split sep s) = S (count_occ N.eq_dec s sep) /\
  split sep (join sep fields) = fields.
Proof.
  intros Hne Hall.
  split; [apply join_split|]. split; [apply split_fields_no_sep|].
  split; [apply split_length|]. now apply split_join.
Qed.

Lemma split_join_round_trip_witness :
  join colon (split colon (lit "B1:1:x")) = lit "B1:1:x" /\
  Forall (fun field => ~ In colon field) (split colon (lit "B1:1:x")) /\
  List.length (split colon (lit "B1:1:x"))
    = S (count_occ N.eq_dec (lit "B1:1:x") colon) /\
  split colon (join colon [lit "B2"; []; lit "0"]) = [lit "B2"; []; lit "0"].
Proof.
  apply (split_join_round_trip colon (lit "B1:1:x") [lit "B2"; []; lit "0"]).
  - discriminate.
  - repeat constructor; simpl; unfold colon; intuition discriminate.
Defined.

(* ===================================================================== *)
(** ** One line, further *)
(* ===================================================================== *)

Section LineFurther.
Variable py : runtime.

(** What a line is, whatever the held-state: dropped, or an event for a
    button of the table. *)
Lemma process_line_shape line :
  (forall held, process_line py line held = (held, [])) \/
  exists b v n k,
    split colon (strip line) = [b; v] /\
    py_int py v = Some n /\
    dict_get BUTTON_TO_KEY b = Some k /\
    forall held,
      process_line py line held = key_state_tracker b k (Z.eqb n 1) held.
Proof.
  destruct (split colon (strip line)) as [|b [|v [|? ?]]] eqn:Hs;
    try (left; intros held; unfold process_line; rewrite Hs;
         now destruct (truthy (strip line))).
  destruct (py_int py v) as [n|] eqn:Hn.
  - destruct (dict_get BUTTON_TO_KEY b) as [k|] eqn:Hk.
    + right. exists b, v, n, k. repeat split; auto.
      intros held. now apply (process_line_decodes py line held b v n k).
    + left. intros held. unfold process_line. rewrite Hs, Hn, Hk.
      now destruct (truthy (strip line)).
  - left. intros held. unfold process_line. rewrite Hs, Hn.
    now destruct (truthy (strip line)).
Qed.

Lemma tracker_idempotent b k pressed held :
  key_state_tracker b k pressed (fst (key_state_tracker b k pressed held))
  = (fst (key_state_tracker b k pressed held), []).
Proof.
  destruct (tracker_cases b k pressed held)
    as [E|[(-> & Hh & E)|(-> & Hh & E)]]; rewrite E; cbn [fst].
  - unfold key_state_tracker in *.
    destruct pressed, (dict_get_default held b false); simpl in *;
      congruence.
  - unfold key_state_tracker. now rewrite get_default_set_same.
  - unfold key_state_tracker. now rewrite get_default_set_same.
Qed.

(** After the tracker the button's held-state is the pressed flag, and no
    other button's held-state has changed. *)
Lemma tracker_sets_state b k pressed held :
  dict_get_default (fst (key_state_tracker b k pressed held)) b false = pressed
  /\ forall b', b' <> b ->
       dict_get_default (fst (key_state_tracker b k pressed held)) b' false
       = dict_get_default held b' false.
Proof.
  destruct (tracker_cases b k pressed held)
    as [E|[(-> & Hh & E)|(-> & Hh & E)]]; rewrite E; cbn [fst].
  - split; [|reflexivity].
    unfold key_state_tracker in E.
    destruct pressed, (dict_get_default held b false); simpl in E;
      congruence.
  - split; [apply get_default_set_same|].
    intros b' Hne. apply get_default_set_other. congruence.
  - split; [apply get_default_set_same|].
    intros b' Hne. apply get_default_set_other. congruence.
Qed.

(** The tracker keeps the entries of the dictionary in place and adds at
    most one, at the end. *)
Lemma tracker_keys b k pressed held :
  exists added,
    keys (fst (key_state_tracker b k pressed held)) = keys held ++ added /\
    List.length added <= 1.
Proof.
  assert (Hset : forall v, exists added,
            keys (dict_set held b v) = keys held ++ added /\
            List.length added <= 1).
  { intros v. rewrite keys_dict_set.
    destruct (in_dec str_eq_dec b (keys held)).
    - exists []. now rewrite app_nil_r; auto.
    - exists [b]. auto. }
  destruct (tracker_cases b k pressed held) as [E|[(_ & _ & E)|(_ & _ & E)]];
    rewrite E; cbn [fst]; auto.
  exists []. rewrite app_nil_r. auto.
Qed.

(** X3. Blanks around a line do not matter: carriage return, line feed,
    spaces or any other Unicode blank before and after a line leave what
    the line does unchanged. *)
Theorem process_line_ignores_outer_blanks (ws1 ws2 line : str)
  (held : dict bool) :
  forallb isspace ws1 = true -> forallb isspace ws2 = true ->
  process_line py (ws1 ++ line ++ ws2) held = process_line py line held.
Proof.
  intros H1 H2. unfold process_line. now rewrite strip_surrounded.
Qed.

(** X4. Every line is idempotent: handled a second time right after the
    first, it does no key action and leaves the held-state as the first
    time left it. *)
Theorem process_line_idempotent (line : str) (held : dict bool) :
  process_line py line (fst (process_line py line held))
  = (fst (process_line py line held), []).
Proof.
  destruct (process_line_shape line) as [E|(b & v & n & k & _ & _ & _ & E)].
  - now rewrite !E.
  - rewrite !E. apply tracker_idempotent.
Qed.

(** X5. After a well-formed line for a button of the table, the
    held-state of that button is true exactly when the integer was 1,
    whatever it was before, and the held-state of every other button is
    what it was. *)
Theorem held_state_follows_event (line : str) (held : dict bool)
  (b v : str) (n : Z) (k : str) :
  split colon (strip line) = [b; v] ->
  py_int py v = Some n ->
  dict_get BUTTON_TO_KEY b = Some k ->
  dict_get_default (fst (process_line py line held)) b false = Z.eqb n 1 /\
  forall b', b' <> b ->
    dict_get_default (fst (process_line py line held)) b' false
    = dict_get_default held b' false.
Proof.
  intros Hs Hn Hk.
  rewrite (process_line_decodes py line held b v n k Hs Hn Hk).
  apply tracker_sets_state.
Qed.

(** X6. A line never removes or moves an entry of [held_keys]: the
    buttons stored before stay where they are, and at most one button is
    added, at the end; so over any sequence of lines the dictionary only
    grows at its end. *)
Theorem held_keys_only_grow (line : str) (lines : list str)
  (held : dict bool) :
  (exists added,
     keys (fst (process_line py line held)) = keys held ++ added /\
     List.length added <= 1) /\
  (exists added,
     keys (fst (process_lines py lines held)) = keys held ++ added).
Proof.
  assert (one : forall l h, exists added,
            keys (fst (process_line py l h)) = keys h ++ added /\
            List.length added <= 1).
  { intros l h.
    destruct (process_line_shape l) as [E|(b & v & n & k & _ & _ & _ & E)];
      rewrite E.
    - exists []. cbn [fst]. rewrite app_nil_r. auto.
    - apply tracker_keys. }
  split; [apply one|].
  revert held. induction lines as [|l lines IH]; intros held.
  - exists []. simpl. now rewrite app_nil_r.
  - cbn [process_lines].
    destruct (one l held) as (added1 & E1 & _).
    destruct (process_line py l held) as [held1 acts1]. cbn [fst] in E1.
    destruct (IH held1) as (added2 & E2).
    destruct (process_lines py lines held1) as [held2 acts2]. cbn [fst] in *.
    exists (added1 ++ added2). now rewrite E2, E1, app_assoc.
Qed.

(** X7. A line acts only when it holds exactly one colon once trimmed:
    with none, or with two or more, it does no key action and leaves the
    held-state as it was. *)
Theorem one_colon_needed (line : str) (held : dict bool) :
  count_occ N.eq_dec (strip line) colon <> 1 ->
  process_line py line held = (held, []).
Proof.
  intros H.
  destruct (process_line_shape line) as [E|(b & v & n & k & Hs & _)];
    [apply E|].
  elim H. pose proof (split_length colon (strip line)) as L.
  rewrite Hs in L. now injection L as <-.
Qed.

End LineFurther.

Lemma process_line_ignores_outer_blanks_witness :
  process_line ascii_runtime ([32; 9] ++ lit "B3:1" ++ [13; 10; 0x3000])%N []
  = process_line ascii_runtime (lit "B3:1") [].
Proof.
  apply process_line_ignores_outer_blanks; reflexivity.
Defined.

Lemma held_state_follows_event_witness :
  dict_get_default
    (fst (process_line ascii_runtime (lit "B4: +01 ")
            [(lit "B1", true); (lit "B4", false)])) (lit "B4") false
  = true.
Proof.
  exact (proj1 (held_state_follows_event ascii_runtime (lit "B4: +01 ")
                  [(lit "B1", true); (lit "B4", false)]
                  (lit "B4") (lit " +01") 1%Z (lit "d")
                  eq_refl eq_refl eq_refl)).
Defined.

Lemma one_colon_needed_witness :
  process_line ascii_runtime (lit "B1:1:1") [(lit "B1", false)]
  = ([(lit "B1", false)], []).
Proof.
  apply one_colon_needed. vm_compute. discriminate.
Defined.

(* ===================================================================== *)
(** ** Sessions and shutdown, further *)
(* ===================================================================== *)

Lemma key_of_some_button k :
  (exists b, dict_get BUTTON_TO_KEY b = Some k) \/
  (forall b, dict_get BUTTON_TO_KEY b <> Some k).
Proof.
  destruct (str_eq_dec k (lit "w")) as [->|Hw];
    [left; now exists (lit "B1")|].
  destruct (str_eq_dec k (lit "a")) as [->|Ha];
    [left; now exists (lit "B2")|].
  destruct (str_eq_dec k (lit "s")) as [->|Hs];
    [left; now exists (lit "B3")|].
  destruct (str_eq_dec k (lit "d")) as [->|Hd];
    [left; now exists (lit "B4")|].
  right. intros b H. apply button_cases in H.
  destruct H as [H|[H|[H|H]]]; injection H as _ ->; congruence.
Qed.

Lemma held_keys_in_table held :
  held_keys_ok held -> incl (keys held) (keys BUTTON_TO_KEY).
Proof.
  intros [_ Hin] b Hb. destruct (Hin b Hb) as [k Hk].
  exact (dict_get_In BUTTON_TO_KEY b k Hk).
Qed.

(** The tracker keeps the account of a key: downs done plus the key's
    state before are ups done plus its state after. *)
Lemma tracker_balance b k b' k' pressed held :
  dict_get BUTTON_TO_KEY b = Some k ->
  dict_get BUTTON_TO_KEY b' = Some k' ->
  count_occ key_action_eq_dec (snd (key_state_tracker b' k' pressed held)) (Press k)
  + down_count (dict_get_default held b false)
  = count_occ key_action_eq_dec (snd (key_state_tracker b' k' pressed held)) (Release k)
    + down_count (dict_get_default (fst (key_state_tracker b' k' pressed held)) b false).
Proof.
  intros Hk Hk'.
  destruct (tracker_cases b' k' pressed held)
    as [E|[(_ & Hheld & E)|(_ & Hheld & E)]]; rewrite E; cbn [fst snd].
  - reflexivity.
  - rewrite (count_occ_cons_neq key_action_eq_dec [] (x := Press k') (y := Release k))
      by discriminate.
    destruct (str_eq_dec k' k) as [->|Hne].
    + assert (b' = b) by eauto using button_injective; subst b'.
      rewrite count_occ_cons_eq by reflexivity.
      now rewrite get_default_set_same, Hheld.
    + rewrite count_occ_cons_neq by congruence.
      rewrite get_default_set_other; [reflexivity|].
      intros ->. congruence.
  - rewrite (count_occ_cons_neq key_action_eq_dec [] (x := Release k') (y := Press k))
      by discriminate.
    destruct (str_eq_dec k' k) as [->|Hne].
    + assert (b' = b) by eauto using button_injective; subst b'.
      rewrite count_occ_cons_eq by reflexivity.
      rewrite get_default_set_same, Hheld. simpl. lia.
    + rewrite count_occ_cons_neq by congruence.
      rewrite get_default_set_other; [reflexivity|].
      intros ->. congruence.
Qed.

Lemma tracker_actions_in_table b k pressed held a :
  dict_get BUTTON_TO_KEY b = Some k ->
  In a (snd (key_state_tracker b k pressed held)) ->
  exists b k, dict_get BUTTON_TO_KEY b = Some k /\ (a = Press k \/ a = Release k).
Proof.
  intros Hk.
  destruct (tracker_cases b k pressed held) as [E|[(_ & _ & E)|(_ & _ & E)]];
    rewrite E; cbn [snd]; intros Ha; [destruct Ha| |];
    destruct Ha as [<-|[]]; exists b, k; auto.
Qed.

(** The cleanup releases a key once when its button is held and not at
    all when it is not. *)
Lemma release_count_state items b k :
  NoDup (keys items) ->
  dict_get BUTTON_TO_KEY b = Some k ->
  count_occ key_action_eq_dec (release_held_keys items) (Release k)
  = down_count (dict_get_default items b false).
Proof.
  intros Hnd Hk. induction items as [|[b' v] items IH]; [reflexivity|].
  rewrite release_held_keys_cons, count_occ_app.
  simpl in Hnd. inversion Hnd as [|? ? Hnin Hnd']; subst.
  unfold dict_get_default in *. cbn [dict_get].
  destruct (str_eqb b' b) eqn:E.
  - apply str_eqb_eq in E; subst b'.
    rewrite (release_entry b v k Hk).
    rewrite (release_count_absent items b k Hk Hnin).
    destruct v; [now rewrite count_occ_cons_eq | reflexivity].
  - apply str_eqb_neq in E.
    now rewrite (release_entry_other b' v b k Hk E), IH.
Qed.

Section SessionFurther.
Variable py : runtime.

Lemma process_lines_keeps_ok lines : forall held,
  held_keys_ok held -> held_keys_ok (fst (process_lines py lines held)).
Proof.
  induction lines as [|line lines IH]; intros held Hok; [exact Hok|].
  cbn [process_lines].
  pose proof (process_line_keeps_ok py line held Hok) as H1.
  destruct (process_line py line held) as [held1 acts1].
  specialize (IH held1 H1).
  now destruct (process_lines py lines held1) as [held2 acts2].
Qed.

Lemma process_lines_balance lines : forall held b k,
  dict_get BUTTON_TO_KEY b = Some k ->
  count_occ key_action_eq_dec (snd (process_lines py lines held)) (Press k)
  + down_count (dict_get_default held b false)
  = count_occ key_action_eq_dec (snd (process_lines py lines held)) (Release k)
    + down_count (dict_get_default (fst (process_lines py lines held)) b false).
Proof.
  induction lines as [|line lines IH]; intros held b k Hk; [reflexivity|].
  cbn [process_lines].
  assert (H1 :
    count_occ key_action_eq_dec (snd (process_line py line held)) (Press k)
    + down_count (dict_get_default held b false)
    = count_occ key_action_eq_dec (snd (process_line py line held)) (Release k)
      + down_count (dict_get_default (fst (process_line py line held)) b false)).
  { destruct (process_line_shape py line) as [E|(b' & v & n & k' & _ & _ & Hk' & E)];
      rewrite E; [reflexivity|]. now apply tracker_balance. }
  destruct (process_line py line held) as [held1 acts1].
  specialize (IH held1 b k Hk).
  destruct (process_lines py lines held1) as [held2 acts2].
  cbn [fst snd] in *. rewrite !count_occ_app. lia.
Qed.

Lemma process_lines_actions_in_table lines : forall held a,
  In a (snd (process_lines py lines held)) ->
  exists b k, dict_get BUTTON_TO_KEY b = Some k /\ (a = Press k \/ a = Release k).
Proof.
  induction lines as [|line lines IH]; intros held a; [intros []|].
  cbn [process_lines].
  assert (H1 : In a (snd (process_line py line held)) ->
    exists b k, dict_get BUTTON_TO_KEY b = Some k /\ (a = Press k \/ a = Release k)).
  { destruct (process_line_shape py line) as [E|(b' & v & n & k' & _ & _ & Hk' & E)];
      rewrite E; [intros []|]. now apply tracker_actions_in_table. }
  destruct (process_line py line held) as [held1 acts1].
  specialize (IH held1 a).
  destruct (process_lines py lines held1) as [held2 acts2].
  cbn [fst snd] in *. rewrite in_app_iff. intros [H|H]; auto.
Qed.

(** The loop over received lines and nothing else is the session of their
    texts. *)
Lemma read_loop_session raws held :
  read_loop py (map ReadLine raws) held
  = (Blocked, fst (process_lines py (map received_text raws) held),
     snd (process_lines py (map received_text raws) held)).
Proof.
  rewrite <- (app_nil_r (map ReadLine raws)), read_loop_lines.
  destruct (process_lines py (map received_text raws) held) as [h a].
  cbn [read_loop fst snd]. now rewrite app_nil_r.
Qed.

(** [main] with a port that opens, ended by a trigger after received
    lines. *)
Lemma main_shutdown w port raws trigger rest :
  fst (find_arduino_port w) = Some port ->
  serial_opens w port BAUD = true ->
  trigger = Interrupt \/ trigger = ReadFailure ->
  main py w (map ReadLine raws ++ trigger :: rest)
  = (match trigger with
     | Interrupt => Returned
     | _ => Uncaught SerialException
     end,
     snd (process_lines py (map received_text raws) [])
     ++ release_held_keys (fst (process_lines py (map received_text raws) []))).
Proof.
  intros Hport Hopen Ht.
  rewrite main_unfold, Hport, Hopen, read_loop_lines.
  destruct (process_lines py (map received_text raws) []) as [held acts].
  destruct Ht as [-> | ->]; cbn; now rewrite app_nil_r.
Qed.

Lemma read_loop_skips_idle reads : forall held,
  read_loop py (filter (fun r => negb (is_idle_read r)) reads) held
  = read_loop py reads held.
Proof.
  induction reads as [|[raw| | |raw] reads IH]; intros held;
    try reflexivity.
  cbn [filter]. destruct (is_idle_read (ReadLine raw)) eqn:E; cbn [negb].
  - rewrite IH, read_loop_line.
    cbn [is_idle_read] in E. apply negb_true_iff in E.
    rewrite (process_line_blank py _ held E). cbv beta iota zeta.
    destruct (read_loop py reads held) as [[? ?] ?]; reflexivity.
  - rewrite !read_loop_line.
    destruct (process_line py (received_text raw) held) as [held1 acts1].
    now rewrite IH.
Qed.

Lemma main_interrupted_line w port raws raw rest :
  fst (find_arduino_port w) = Some port ->
  serial_opens w port BAUD = true ->
  main py w (map ReadLine raws ++ InterruptedLine raw :: rest)
  = (Returned,
     snd (process_lines py (map received_text raws) [])
     ++ snd (process_line py (received_text raw)
               (fst (process_lines py (map received_text raws) [])))
     ++ release_held_keys (fst (process_lines py (map received_text raws) []))).
Proof.
  intros Hport Hopen.
  rewrite main_unfold, Hport, Hopen, read_loop_lines.
  destruct (process_lines py (map received_text raws) []) as [held acts].
  rewrite read_loop_interrupted_line. cbn [negb fst snd].
  now rewrite <- app_assoc.
Qed.

Lemma process_line_one_action line held :
  List.length (snd (process_line py line held)) <= 1.
Proof.
  destruct (process_line_shape py line) as [H | (b & v & n & k & _ & _ & _ & H)];
    rewrite H; [cbn; lia|].
  destruct (tracker_cases b k (Z.eqb n 1) held)
    as [E | [(_ & _ & E) | (_ & _ & E)]]; rewrite E; cbn; lia.
Qed.

(** After any lines from the empty held-state, the key-ups of the
    cleanup are the ones that are due. *)
Lemma cleanup_settles_account lines k :
  count_occ key_action_eq_dec (snd (process_lines py lines [])) (Press k)
  = count_occ key_action_eq_dec (snd (process_lines py lines [])) (Release k)
    + count_occ key_action_eq_dec
        (release_held_keys (fst (process_lines py lines []))) (Release k)
  /\
  count_occ key_action_eq_dec
    (release_held_keys (fst (process_lines py lines []))) (Press k) = 0.
Proof.
  pose proof (process_lines_keeps_ok lines [] held_keys_ok_empty) as Hok.
  split; [|apply count_occ_not_In, release_no_press].
  destruct (key_of_some_button k) as [[b Hk]|Hnone].
  - rewrite (release_count_state _ b k (proj1 Hok) Hk).
    pose proof (process_lines_balance lines [] b k Hk) as B.
    change (dict_get_default [] b false) with false in B.
    simpl down_count in B at 1. lia.
  - assert (Hp : count_occ key_action_eq_dec
                   (snd (process_lines py lines [])) (Press k) = 0).
    { apply count_occ_not_In. intros Hin.
      destruct (process_lines_actions_in_table lines [] _ Hin)
        as (b' & k' & Hk' & [[= ->]|[=]]). exact (Hnone b' Hk'). }
    assert (Hr : count_occ key_action_eq_dec
                   (snd (process_lines py lines [])) (Release k) = 0).
    { apply count_occ_not_In. intros Hin.
      destruct (process_lines_actions_in_table lines [] _ Hin)
        as (b' & k' & Hk' & [[=]|[= ->]]). exact (Hnone b' Hk'). }
    assert (Hc : count_occ key_action_eq_dec
                   (release_held_keys (fst (process_lines py lines [])))
                   (Release k) = 0).
    { apply count_occ_not_In. intros Hin.
      destruct (release_only_held _ k Hin) as (b' & _ & Hk').
      exact (Hnone b' Hk'). }
    lia.
Qed.

End SessionFurther.

(** X8. The account of a key over a session: for a button of the table,
    the key-downs done by any sequence of lines, plus one if the button
    was held before, are the key-ups done plus one if it is held after.
    From the empty held-state a key is therefore down once more than up
    exactly when its button ends held.  No line acts on a key that is not
    in the table. *)
Theorem session_key_balance (py : runtime) (lines : list str)
  (held : dict bool) (b k : str) :
  dict_get BUTTON_TO_KEY b = Some k ->
  count_occ key_action_eq_dec (snd (process_lines py lines held)) (Press k)
  + down_count (dict_get_default held b false)
  = count_occ key_action_eq_dec (snd (process_lines py lines held)) (Release k)
    + down_count (dict_get_default (fst (process_lines py lines held)) b false)
  /\
  forall a, In a (snd (process_lines py lines held)) ->
    exists b' k', dict_get BUTTON_TO_KEY b' = Some k' /\
                  (a = Press k' \/ a = Release k').
Proof.
  intros Hk. split.
  - now apply process_lines_balance.
  - apply process_lines_actions_in_table.
Qed.

Lemma session_key_balance_witness :
  count_occ key_action_eq_dec
    (snd (process_lines ascii_runtime
            [lit "B1:1"; lit "B1:0"; lit "B1:1"; lit "B2:1"; lit "B1:1"] []))
    (Press (lit "w"))
  + down_count false
  = count_occ key_action_eq_dec
      (snd (process_lines ascii_runtime
              [lit "B1:1"; lit "B1:0"; lit "B1:1"; lit "B2:1"; lit "B1:1"] []))
      (Release (lit "w"))
    + down_count true.
Proof.
  exact (proj1 (session_key_balance ascii_runtime
                  [lit "B1:1"; lit "B1:0"; lit "B1:1"; lit "B2:1"; lit "B1:1"]
                  [] (lit "B1") (lit "w") eq_refl)).
Defined.

(** X9. The account of the keys at shutdown.  When the session is ended
    at a [readline], by Ctrl+C or by a failure of the device, the process
    has released every key as often as it pressed it.  When Ctrl+C
    arrives between the key action of a line and the write to
    [held_keys], the process still returns normally, the cleanup goes by
    the held-state from before that line, and the account is off by that
    one action: a key-down done for the line is never released, so that
    key stays down, and a key-up done for the line is done once more by
    the cleanup. *)
Theorem key_account_at_shutdown (py : runtime) (w : world) (port : str)
  (raws : list (list byte)) (trigger : read_event) (rest : list read_event)
  (k : str) :
  fst (find_arduino_port w) = Some port ->
  serial_opens w port BAUD = true ->
  (trigger = Interrupt \/ trigger = ReadFailure ->
   count_occ key_action_eq_dec
     (snd (main py w (map ReadLine raws ++ trigger :: rest))) (Press k)
   = count_occ key_action_eq_dec
       (snd (main py w (map ReadLine raws ++ trigger :: rest))) (Release k))
  /\
  (forall raw last,
     trigger = InterruptedLine raw ->
     last = snd (process_line py (received_text raw)
                   (fst (process_lines py (map received_text raws) []))) ->
     main py w (map ReadLine raws ++ trigger :: rest)
     = (Returned,
        snd (process_lines py (map received_text raws) [])
        ++ last
        ++ release_held_keys
             (fst (process_lines py (map received_text raws) []))) /\
     List.length last <= 1 /\
     (In (Press k) last ->
      count_occ key_action_eq_dec
        (snd (main py w (map ReadLine raws ++ trigger :: rest))) (Press k)
      = S (count_occ key_action_eq_dec
             (snd (main py w (map ReadLine raws ++ trigger :: rest)))
             (Release k))) /\
     (In (Release k) last ->
      count_occ key_action_eq_dec
        (snd (main py w (map ReadLine raws ++ trigger :: rest))) (Release k)
      = S (count_occ key_action_eq_dec
             (snd (main py w (map ReadLine raws ++ trigger :: rest)))
             (Press k))) /\
     (~ In (Press k) last -> ~ In (Release k) last ->
      count_occ key_action_eq_dec
        (snd (main py w (map ReadLine raws ++ trigger :: rest))) (Press k)
      = count_occ key_action_eq_dec
          (snd (main py w (map ReadLine raws ++ trigger :: rest)))
          (Release k))).
Proof.
  intros Hport Hopen.
  destruct (cleanup_settles_account py (map received_text raws) k)
    as [Hacc Hnp].
  split.
  - intros Ht.
    rewrite (main_shutdown py w port raws trigger rest Hport Hopen Ht).
    cbn [snd]. rewrite !count_occ_app. lia.
  - intros raw last -> ->.
    rewrite (main_interrupted_line py w port raws raw rest Hport Hopen).
    cbn [snd]. rewrite !count_occ_app.
    pose proof (process_line_one_action py (received_text raw)
                  (fst (process_lines py (map received_text raws) []))) as Hlen.
    destruct (snd (process_line py (received_text raw)
                     (fst (process_lines py (map received_text raws) []))))
      as [|a [|a' last']]; [| |cbn in Hlen; lia].
    + split; [reflexivity|]. split; [exact Hlen|].
      split; [intros []|]. split; [intros []|].
      intros _ _. cbn [count_occ]. lia.
    + split; [reflexivity|]. split; [exact Hlen|].
      split; [|split].
      * intros [-> | []]. rewrite count_occ_cons_eq by reflexivity.
        rewrite count_occ_cons_neq by discriminate. cbn [count_occ]. lia.
      * intros [-> | []]. rewrite count_occ_cons_eq by reflexivity.
        rewrite count_occ_cons_neq by discriminate. cbn [count_occ]. lia.
      * intros Hp Hr.
        rewrite !count_occ_cons_neq
          by (intros ->; first [apply Hp; now left | apply Hr; now left]).
        cbn [count_occ]. lia.
Qed.

Lemma key_account_at_shutdown_witness :
  main ascii_runtime mac_host
    (map ReadLine [list_byte_of_string "B3:1"; list_byte_of_string "B3:0"]
     ++ InterruptedLine (list_byte_of_string "B1:1")
     :: [ReadLine (list_byte_of_string "B1:0")])
  = (Returned, [Press (lit "s"); Release (lit "s"); Press (lit "w")]) /\
  count_occ key_action_eq_dec
    (snd (main ascii_runtime mac_host
            (map ReadLine [list_byte_of_string "B3:1"; list_byte_of_string "B3:0"]
             ++ InterruptedLine (list_byte_of_string "B1:1")
             :: [ReadLine (list_byte_of_string "B1:0")])))
    (Press (lit "w"))
  = S (count_occ key_action_eq_dec
         (snd (main ascii_runtime mac_host
                 (map ReadLine [list_byte_of_string "B3:1";
                                list_byte_of_string "B3:0"]
                  ++ InterruptedLine (list_byte_of_string "B1:1")
                  :: [ReadLine (list_byte_of_string "B1:0")])))
         (Release (lit "w"))).
Proof.
  destruct (key_account_at_shutdown ascii_runtime mac_host
              (lit "/dev/cu.usbmodem14201")
              [list_byte_of_string "B3:1"; list_byte_of_string "B3:0"]
              (InterruptedLine (list_byte_of_string "B1:1"))
              [ReadLine (list_byte_of_string "B1:0")]
              (lit "w") eq_refl eq_refl) as [_ H].
  destruct (H (list_byte_of_string "B1:1") [Press (lit "w")] eq_refl eq_refl)
    as (Hmain & _ & Hdown & _).
  split.
  - exact Hmain.
  - apply Hdown. left. reflexivity.
Defined.

(** X10. Whatever has been received, [held_keys] holds no button twice
    and at most four entries, and the cleanup does at most four
    releases. *)
Theorem held_keys_at_most_four (py : runtime) (reads : list read_event)
  (ending : loop_end) (held : dict bool) (acts : list key_action) :
  read_loop py reads [] = (ending, held, acts) ->
  NoDup (keys held) /\
  List.length held <= 4 /\
  List.length (release_held_keys held) <= 4.
Proof.
  intros E.
  pose proof (read_loop_keeps_ok py reads [] held_keys_ok_empty) as Hok.
  rewrite E in Hok. cbn [fst snd] in Hok.
  assert (Hlen : List.length held <= 4).
  { pose proof (NoDup_incl_length (proj1 Hok) (held_keys_in_table held Hok)) as L.
    unfold keys in L. rewrite length_map in L. exact L. }
  split; [apply Hok|]. split; [exact Hlen|].
  rewrite (release_length held Hok).
  pose proof (filter_length_le (fun item : str * bool => snd item) held). lia.
Qed.

Lemma held_keys_at_most_four_witness :
  NoDup (keys [(lit "B4", false); (lit "B1", true)]) /\
  List.length [(lit "B4", false); (lit "B1", true)] <= 4 /\
  List.length (release_held_keys [(lit "B4", false); (lit "B1", true)]) <= 4.
Proof.
  apply (held_keys_at_most_four ascii_runtime
           (map (fun l => ReadLine (list_byte_of_string l))
              ["B4:1"; "B1:1"; "B4:0"; "B4:0"]%string)
           Blocked _ [Press (lit "d"); Press (lit "w"); Release (lit "d")]).
  reflexivity.
Defined.

(** X11. A failure of a read is not caught: after the cleanup the
    process ends with the uncaught [SerialException], exit status 1,
    where a user interrupt makes [main] return, exit status 0.  Either
    way the key actions are those of the lines received before, then the
    cleanup, and what would have come after the trigger plays no part. *)
Theorem read_failure_propagates (py : runtime) (w : world) (port : str)
  (raws : list (list byte)) (rest : list read_event) :
  fst (find_arduino_port w) = Some port ->
  serial_opens w port BAUD = true ->
  main py w (map ReadLine raws ++ ReadFailure :: rest)
    = (Uncaught SerialException,
       snd (main py w (map ReadLine raws ++ [Interrupt]))) /\
  exit_code (fst (main py w (map ReadLine raws ++ ReadFailure :: rest)))
    = Some 1%Z /\
  main py w (map ReadLine raws ++ Interrupt :: rest)
    = (Returned,
       snd (process_lines py (map received_text raws) [])
       ++ release_held_keys (fst (process_lines py (map received_text raws) []))).
Proof.
  intros Hport Hopen.
  rewrite (main_shutdown py w port raws ReadFailure rest Hport Hopen)
    by now right.
  rewrite (main_shutdown py w port raws Interrupt rest Hport Hopen)
    by now left.
  rewrite (main_shutdown py w port raws Interrupt [] Hport Hopen)
    by now left.
  repeat split.
Qed.

Lemma read_failure_propagates_witness :
  fst (main ascii_runtime mac_host
         (map ReadLine [list_byte_of_string "B2:1"] ++ ReadFailure :: []))
  = Uncaught SerialException.
Proof.
  exact (f_equal fst
    (proj1 (read_failure_propagates ascii_runtime mac_host
              (lit "/dev/cu.usbmodem14201") [list_byte_of_string "B2:1"] []
              eq_refl eq_refl))).
Defined.

(** X12. Without an interrupt or a failure the process neither ends nor
    cleans up: after any received byte strings it is still in the loop,
    its held-state and its key actions being those of handling the
    received texts one after the other. *)
Theorem keeps_running_until_triggered (py : runtime) (w : world) (port : str)
  (raws : list (list byte)) :
  fst (find_arduino_port w) = Some port ->
  serial_opens w port BAUD = true ->
  main py w (map ReadLine raws)
    = (StillRunning (fst (process_lines py (map received_text raws) [])),
       snd (process_lines py (map received_text raws) [])) /\
  exit_code (fst (main py w (map ReadLine raws))) = None.
Proof.
  intros Hport Hopen.
  rewrite main_unfold, Hport, Hopen, read_loop_session. now split.
Qed.

Lemma keeps_running_until_triggered_witness :
  exit_code (fst (main ascii_runtime mac_host
                    (map ReadLine [list_byte_of_string "B2:1"; []; [xff]])))
  = None.
Proof.
  exact (proj2 (keeps_running_until_triggered ascii_runtime mac_host
                  (lit "/dev/cu.usbmodem14201")
                  [list_byte_of_string "B2:1"; []; [xff]] eq_refl eq_refl)).
Defined.

(** X13. Reads that time out, and reads whose text is blank once decoded
    and trimmed, change nothing: taking them out of the events, wherever
    they are, gives the same outcome and the same key actions. *)
Theorem idle_reads_change_nothing (py : runtime) (w : world)
  (reads : list read_event) :
  main py w (filter (fun r => negb (is_idle_read r)) reads) = main py w reads.
Proof.
  rewrite !main_unfold. now rewrite read_loop_skips_idle.
Qed.

(* ===================================================================== *)
(** ** Port discovery, further *)
(* ===================================================================== *)

Lemma strip_prefix_app p s rest :
  strip_prefix p s = Some rest <-> s = p ++ rest.
Proof.
  revert s. induction p as [|x p IH]; intros s; simpl.
  - split; [now intros [= ->] | now intros ->].
  - destruct s as [|y s]; [split; discriminate|].
    destruct (N.eqb_spec x y) as [->|Hne].
    + rewrite IH. split; [now intros -> | now intros [= ->]].
    + split; [discriminate | intros [= -> _]; congruence].
Qed.

Lemma has_prefix_iff p s :
  has_prefix p s = true <-> exists rest, s = p ++ rest.
Proof.
  unfold has_prefix. destruct (strip_prefix p s) as [rest|] eqn:E.
  - apply strip_prefix_app in E. split; eauto.
  - split; [discriminate|]. intros [rest H].
    apply strip_prefix_app in H. congruence.
Qed.

Lemma filter_head {A} (f : A -> bool) l x t :
  filter f l = x :: t -> In x l /\ f x = true.
Proof.
  intros E. apply filter_In. rewrite E. now left.
Qed.

Lemma filter_nil {A} (f : A -> bool) l :
  filter f l = [] <-> forall x, In x l -> f x = false.
Proof.
  induction l as [|a l IH]; simpl.
  - split; [intros _ x [] | reflexivity].
  - destruct (f a) eqn:E.
    + split; [discriminate|]. intros H. specialize (H a (or_introl eq_refl)).
      congruence.
    + rewrite IH. split.
      * intros H x [<-|Hx]; auto.
      * intros H x Hx. apply H. now right.
Qed.

(** The port locator in terms of the listing. *)
Lemma find_arduino_port_listing w :
  fst (find_arduino_port w)
  = match filter (has_prefix (lit "cu.usbmodem")) (dev_entries w) with
    | name :: _ => Some (dev_dir ++ name)
    | [] =>
        match filter (has_prefix (lit "cu.usbserial")) (dev_entries w) with
        | name :: _ => Some (dev_dir ++ name)
        | [] => None
        end
    end.
Proof.
  rewrite find_arduino_port_unfold, glob_usbmodem, glob_usbserial.
  destruct (filter _ (dev_entries w)); [|reflexivity].
  destruct (filter _ (dev_entries w)); reflexivity.
Qed.

(** X14. The port locator never makes a path up: a port it returns is
    [/dev/] followed by a name that the directory lists and that starts
    with [cu.usbmodem] or with [cu.usbserial]. *)
Theorem found_port_is_listed_device (w : world) (port : str) :
  fst (find_arduino_port w) = Some port ->
  exists name,
    In name (dev_entries w) /\
    port = lit "/dev/" ++ name /\
    ((exists rest, name = lit "cu.usbmodem" ++ rest) \/
     (exists rest, name = lit "cu.usbserial" ++ rest)).
Proof.
  rewrite find_arduino_port_listing.
  destruct (filter (has_prefix (lit "cu.usbmodem")) (dev_entries w))
    as [|m ms] eqn:Em.
  - destruct (filter (has_prefix (lit "cu.usbserial")) (dev_entries w))
      as [|s ss] eqn:Es; [discriminate|].
    intros [= <-]. destruct (filter_head _ _ _ _ Es) as [Hin Hp].
    exists s. split; [exact Hin|]. split; [reflexivity|].
    right. now apply has_prefix_iff.
  - intros [= <-]. destruct (filter_head _ _ _ _ Em) as [Hin Hp].
    exists m. split; [exact Hin|]. split; [reflexivity|].
    left. now apply has_prefix_iff.
Qed.

Lemma found_port_is_listed_device_witness :
  exists name,
    In name (dev_entries mac_host) /\
    lit "/dev/cu.usbmodem14201" = lit "/dev/" ++ name /\
    ((exists rest, name = lit "cu.usbmodem" ++ rest) \/
     (exists rest, name = lit "cu.usbserial" ++ rest)).
Proof.
  apply (found_port_is_listed_device mac_host). reflexivity.
Defined.

(** X15. The port locator reports no port exactly when the directory
    lists no name that starts with [cu.usbmodem] or with [cu.usbserial]:
    it misses no device. *)
Theorem no_port_iff_no_device (w : world) :
  fst (find_arduino_port w) = None <->
  forall name, In name (dev_entries w) ->
    has_prefix (lit "cu.usbmodem") name = false /\
    has_prefix (lit "cu.usbserial") name = false.
Proof.
  rewrite find_arduino_port_listing. split.
  - destruct (filter (has_prefix (lit "cu.usbmodem")) (dev_entries w))
      as [|m ms] eqn:Em; [|discriminate].
    destruct (filter (has_prefix (lit "cu.usbserial")) (dev_entries w))
      as [|s ss] eqn:Es; [|discriminate].
    intros _ name Hin. split.
    + exact (proj1 (filter_nil _ _) Em name Hin).
    + exact (proj1 (filter_nil _ _) Es name Hin).
  - intros H.
    assert (Em : filter (has_prefix (lit "cu.usbmodem")) (dev_entries w) = []).
    { apply filter_nil. intros x Hx. apply (H x Hx). }
    assert (Es : filter (has_prefix (lit "cu.usbserial")) (dev_entries w) = []).
    { apply filter_nil. intros x Hx. apply (H x Hx). }
    now rewrite Em, Es.
Qed.

(** X16. A USB-modem device wins over a USB-serial one wherever the two
    stand in the listing: as soon as the directory lists a name that
    starts with [cu.usbmodem], the port returned is a [cu.usbmodem]
    path. *)
Theorem usbmodem_preferred (w : world) (name rest : str) :
  In name (dev_entries w) ->
  name = lit "cu.usbmodem" ++ rest ->
  exists rest',
    fst (find_arduino_port w) = Some (lit "/dev/cu.usbmodem" ++ rest').
Proof.
  intros Hin Hname. rewrite find_arduino_port_listing.
  destruct (filter (has_prefix (lit "cu.usbmodem")) (dev_entries w))
    as [|m ms] eqn:Em.
  - assert (Hp : has_prefix (lit "cu.usbmodem") name = true)
      by (apply has_prefix_iff; eauto).
    rewrite (proj1 (filter_nil _ _) Em name Hin) in Hp. discriminate.
  - destruct (filter_head _ _ _ _ Em) as [_ Hp].
    apply has_prefix_iff in Hp as [rest' ->]. now exists rest'.
Qed.

Lemma usbmodem_preferred_witness :
  exists rest',
    fst (find_arduino_port mac_host) = Some (lit "/dev/cu.usbmodem" ++ rest').
Proof.
  apply (usbmodem_preferred mac_host (lit "cu.usbmodem14201") (lit "14201")).
  - right. right. left. reflexivity.
  - reflexivity.
Defined.

(* ===================================================================== *)
(** ** The decoder, further *)
(* ===================================================================== *)

Section Canonical.
Local Open Scope N_scope.

Ltac divlia := zify; Z.to_euclidean_division_equations; lia.

Lemma byte_of_to_N b : byte_of_N (Byte.to_N b) = b.
Proof. unfold byte_of_N. now rewrite Byte.of_to_N. Qed.

Lemma to_N_lt_256 b : Byte.to_N b < 256.
Proof. pose proof (Byte.to_N_bounded b). lia. Qed.

Lemma encode_one c : c < 0x80 -> utf8_encode_char c = [byte_of_N c].
Proof.
  intros H. unfold utf8_encode_char.
  destruct (N.ltb_spec c 0x80); [reflexivity | lia].
Qed.

Lemma encode_two c :
  0x80 <= c < 0x800 ->
  utf8_encode_char c = map byte_of_N [192 + c / 64; 128 + c mod 64].
Proof.
  intros H. unfold utf8_encode_char.
  destruct (N.ltb_spec c 0x80); [lia|].
  destruct (N.ltb_spec c 0x800); [|lia].
  rewrite continuation_byte_value.
  change 0xC0 with (6 * 2 ^ 5).
  rewrite (lead_byte_value 6 c 6 5)
    by (change (2 ^ 6) with 64; change (2 ^ 5) with 32; divlia).
  change (2 ^ 0) with 1. rewrite N.div_1_r. reflexivity.
Qed.

Lemma encode_three c :
  0x800 <= c < 0x10000 ->
  utf8_encode_char c
  = map byte_of_N [224 + c / 4096; 128 + (c / 64) mod 64; 128 + c mod 64].
Proof.
  intros H. unfold utf8_encode_char.
  destruct (N.ltb_spec c 0x80); [lia|].
  destruct (N.ltb_spec c 0x800); [lia|].
  destruct (N.ltb_spec c 0x10000); [|lia].
  rewrite !continuation_byte_value.
  change 0xE0 with (14 * 2 ^ 4).
  rewrite (lead_byte_value 14 c 12 4)
    by (change (2 ^ 12) with 4096; change (2 ^ 4) with 16; divlia).
  change (2 ^ 0) with 1. rewrite N.div_1_r. reflexivity.
Qed.

Lemma encode_four c :
  0x10000 <= c < 0x110000 ->
  utf8_encode_char c
  = map byte_of_N [240 + c / 262144; 128 + (c / 4096) mod 64;
                   128 + (c / 64) mod 64; 128 + c mod 64].
Proof.
  intros H. unfold utf8_encode_char.
  destruct (N.ltb_spec c 0x80); [lia|].
  destruct (N.ltb_spec c 0x800); [lia|].
  destruct (N.ltb_spec c 0x10000); [lia|].
  rewrite !continuation_byte_value.
  change 0xF0 with (30 * 2 ^ 3).
  rewrite (lead_byte_value 30 c 18 3)
    by (change (2 ^ 18) with 262144; change (2 ^ 3) with 8; divlia).
  change (2 ^ 0) with 1. rewrite N.div_1_r. reflexivity.
Qed.

Lemma is_scalar_iff c :
  is_scalar c = true <-> c < 0xD800 \/ 0xDFFF < c < 0x110000.
Proof.
  unfold is_scalar. rewrite orb_true_iff, andb_true_iff, !N.ltb_lt. tauto.
Qed.

(** The strict decoder inside a sequence: the next byte is in range, and
    either completes the character or leaves one byte less to read. *)
Lemma strict_continue p bs s :
  utf8_decode Strict (Some p) bs = Some s ->
  exists b tl,
    bs = b :: tl /\
    lo p <= Byte.to_N b <= hi p /\
    match more p with
    | O => exists s', s = (acc p * 64 + Byte.to_N b mod 64) :: s' /\
                      utf8_decode Strict None tl = Some s'
    | S k => utf8_decode Strict
               (Some {| acc := acc p * 64 + Byte.to_N b mod 64;
                        lo := 0x80; hi := 0xBF; more := k |}) tl = Some s
    end.
Proof.
  destruct bs as [|b tl]; [discriminate|].
  cbn [utf8_decode]. rewrite utf8_continue_value.
  destruct (N.leb_spec (lo p) (Byte.to_N b)) as [Hlo|Hlo]; cbn [andb];
    [|discriminate].
  destruct (N.leb_spec (Byte.to_N b) (hi p)) as [Hhi|Hhi]; [|discriminate].
  intros H. exists b, tl. split; [reflexivity|]. split; [lia|].
  destruct (more p); [|exact H].
  destruct (utf8_decode Strict None tl) as [s'|]; [|discriminate].
  injection H as <-. eauto.
Qed.

(** The first character of a strict decoding: it is a scalar value and
    the input starts with its encoding. *)
Lemma strict_decode_first b tl s :
  utf8_decode Strict None (b :: tl) = Some s ->
  exists c s' tl',
    s = c :: s' /\
    b :: tl = utf8_encode_char c ++ tl' /\
    is_scalar c = true /\
    utf8_decode Strict None tl' = Some s' /\
    (List.length tl' <= List.length tl)%nat.
Proof.
  pose proof (to_N_lt_256 b) as Hb.
  cbn [utf8_decode]. rewrite utf8_start_value.
  destruct (N.ltb_spec (Byte.to_N b) 0x80) as [H1|H1].
  { destruct (utf8_decode Strict None tl) as [s'|] eqn:E; [|discriminate].
    intros [= <-]. exists (Byte.to_N b), s', tl.
    rewrite encode_one by assumption. rewrite byte_of_to_N.
    repeat split; auto. apply is_scalar_iff. lia. }
  destruct (N.ltb_spec (Byte.to_N b) 0xC2) as [H2|H2]; [discriminate|].
  destruct (N.ltb_spec (Byte.to_N b) 0xE0) as [H3|H3].
  { intros H. apply strict_continue in H.
    destruct H as (b2 & tl2 & -> & Hr & (s' & -> & Hs')).
    cbn [lo hi acc more] in *.
    pose proof (to_N_lt_256 b2) as Hb2.
    set (c := Byte.to_N b mod 32 * 64 + Byte.to_N b2 mod 64).
    assert (Hc : 0x80 <= c < 0x800) by (subst c; divlia).
    exists c, s', tl2. rewrite (encode_two c Hc).
    replace (192 + c / 64) with (Byte.to_N b) by (subst c; divlia).
    replace (128 + c mod 64) with (Byte.to_N b2) by (subst c; divlia).
    cbn [map app]. rewrite !byte_of_to_N.
    repeat split; auto. apply is_scalar_iff. lia. simpl; lia. }
  destruct (N.ltb_spec (Byte.to_N b) 0xF0) as [H4|H4].
  { intros H. apply strict_continue in H.
    destruct H as (b2 & tl2 & -> & Hr2 & H).
    cbn [lo hi acc more] in *.
    apply strict_continue in H.
    destruct H as (b3 & tl3 & -> & Hr3 & (s' & -> & Hs')).
    cbn [lo hi acc more] in *.
    pose proof (to_N_lt_256 b2) as Hb2. pose proof (to_N_lt_256 b3) as Hb3.
    set (c := (Byte.to_N b mod 16 * 64 + Byte.to_N b2 mod 64) * 64
              + Byte.to_N b3 mod 64).
    assert (Hlo : (if Byte.to_N b =? 0xE0 then 0xA0 else 0x80) <= Byte.to_N b2)
      by lia.
    assert (Hhi : Byte.to_N b2 <= (if Byte.to_N b =? 0xED then 0x9F else 0xBF))
      by lia.
    clear Hr2.
    destruct (N.eqb_spec (Byte.to_N b) 0xE0) as [E0|E0];
      destruct (N.eqb_spec (Byte.to_N b) 0xED) as [ED|ED]; try lia.
    all: assert (Hc : 0x800 <= c < 0x10000) by (subst c; divlia).
    all: assert (Hsc : c < 0xD800 \/ 0xDFFF < c < 0x110000) by (subst c; divlia).
    all: exists c, s', tl3; rewrite (encode_three c Hc).
    all: replace (224 + c / 4096) with (Byte.to_N b) by (subst c; divlia).
    all: replace (128 + (c / 64) mod 64) with (Byte.to_N b2) by (subst c; divlia).
    all: replace (128 + c mod 64) with (Byte.to_N b3) by (subst c; divlia).
    all: cbn [map app]; rewrite !byte_of_to_N.
    all: repeat split; auto; [now apply is_scalar_iff | simpl; lia]. }
  destruct (N.ltb_spec (Byte.to_N b) 0xF5) as [H5|H5]; [|discriminate].
  intros H. apply strict_continue in H.
  destruct H as (b2 & tl2 & -> & Hr2 & H).
  cbn [lo hi acc more] in *.
  apply strict_continue in H.
  destruct H as (b3 & tl3 & -> & Hr3 & H).
  cbn [lo hi acc more] in *.
  apply strict_continue in H.
  destruct H as (b4 & tl4 & -> & Hr4 & (s' & -> & Hs')).
  cbn [lo hi acc more] in *.
  pose proof (to_N_lt_256 b2) as Hb2. pose proof (to_N_lt_256 b3) as Hb3.
  pose proof (to_N_lt_256 b4) as Hb4.
  set (c := ((Byte.to_N b mod 8 * 64 + Byte.to_N b2 mod 64) * 64
             + Byte.to_N b3 mod 64) * 64 + Byte.to_N b4 mod 64).
  assert (Hlo : (if Byte.to_N b =? 0xF0 then 0x90 else 0x80) <= Byte.to_N b2)
    by lia.
  assert (Hhi : Byte.to_N b2 <= (if Byte.to_N b =? 0xF4 then 0x8F else 0xBF))
    by lia.
  clear Hr2.
  destruct (N.eqb_spec (Byte.to_N b) 0xF0) as [E0|E0];
    destruct (N.eqb_spec (Byte.to_N b) 0xF4) as [E4|E4]; try lia.
  all: assert (Hc : 0x10000 <= c < 0x110000) by (subst c; divlia).
  all: exists c, s', tl4; rewrite (encode_four c Hc).
  all: replace (240 + c / 262144) with (Byte.to_N b) by (subst c; divlia).
  all: replace (128 + (c / 4096) mod 64) with (Byte.to_N b2) by (subst c; divlia).
  all: replace (128 + (c / 64) mod 64) with (Byte.to_N b3) by (subst c; divlia).
  all: replace (128 + c mod 64) with (Byte.to_N b4) by (subst c; divlia).
  all: cbn [map app]; rewrite !byte_of_to_N.
  all: repeat split; auto; [apply is_scalar_iff; lia | simpl; lia].
Qed.

End Canonical.

Section AsciiPassThrough.
Local Open Scope N_scope.

Ltac divlia := zify; Z.to_euclidean_division_equations; lia.

Lemma utf8_start_cases n :
  match utf8_start n with
  | Emit c => c = n /\ n < 128
  | Pend p => 128 <= n /\ pending_bounds p
  | Invalid => 128 <= n
  end.
Proof.
  rewrite utf8_start_value. unfold pending_bounds.
  destruct (N.ltb_spec n 0x80); [lia|].
  destruct (N.ltb_spec n 0xC2); [lia|].
  destruct (N.ltb_spec n 0xE0); [cbn [lo hi acc more]; divlia|].
  destruct (N.ltb_spec n 0xF0).
  { cbn [lo hi acc more].
    destruct (N.eqb_spec n 0xE0), (N.eqb_spec n 0xED); divlia. }
  destruct (N.ltb_spec n 0xF5); [|lia].
  cbn [lo hi acc more].
  destruct (N.eqb_spec n 0xF0), (N.eqb_spec n 0xF4); divlia.
Qed.

Lemma utf8_continue_cases p n :
  pending_bounds p ->
  match utf8_continue p n with
  | Emit c => 128 <= n /\ 128 <= c
  | Pend p' => 128 <= n /\ pending_bounds p'
  | Invalid => True
  end.
Proof.
  unfold pending_bounds. intros (Hlo & Hhi & Hacc).
  rewrite utf8_continue_value.
  destruct (N.leb_spec (lo p) n); cbn [andb]; [|exact I].
  destruct (N.leb_spec n (hi p)); [|exact I].
  revert Hacc. destruct (more p) as [|[|[|k]]]; cbn [lo hi acc more]; intros Hacc;
    divlia.
Qed.

Lemma utf8_decode_ignore_ascii bs : forall st text,
  match st with Some p => pending_bounds p | None => True end ->
  utf8_decode Ignore st bs = Some text ->
  filter (fun c => c <? 128) text
  = map Byte.to_N (filter (fun b => Byte.to_N b <? 128) bs).
Proof.
  induction bs as [|b bs IH]; intros st text Hst.
  - destruct st; intros [= <-]; reflexivity.
  - assert (start : forall text,
      match utf8_start (Byte.to_N b) with
      | Emit c => option_map (cons c) (utf8_decode Ignore None bs)
      | Pend p => utf8_decode Ignore (Some p) bs
      | Invalid => utf8_decode Ignore None bs
      end = Some text ->
      filter (fun c => c <? 128) text
      = map Byte.to_N (filter (fun b => Byte.to_N b <? 128) (b :: bs))).
    { intros t. pose proof (utf8_start_cases (Byte.to_N b)) as Hs.
      cbn [filter].
      destruct (utf8_start (Byte.to_N b)) as [c|p|].
      - destruct Hs as [-> Hlt].
        destruct (utf8_decode Ignore None bs) as [t'|] eqn:E; [|discriminate].
        intros [= <-]. cbn [filter].
        apply N.ltb_lt in Hlt. rewrite Hlt. cbn [map]. f_equal.
        now apply (IH None).
      - destruct Hs as [Hge Hp].
        destruct (N.ltb_spec (Byte.to_N b) 128); [lia|].
        intros E. now apply (IH (Some p)).
      - destruct (N.ltb_spec (Byte.to_N b) 128); [lia|].
        intros E. now apply (IH None). }
    cbn [utf8_decode]. destruct st as [p|]; [|apply start].
    pose proof (utf8_continue_cases p (Byte.to_N b) Hst) as Hc.
    destruct (utf8_continue p (Byte.to_N b)) as [c|p'|]; [| |apply start].
    + destruct Hc as [Hn Hcge].
      destruct (utf8_decode Ignore None bs) as [t'|] eqn:E; [|discriminate].
      intros [= <-]. cbn [filter].
      destruct (N.ltb_spec c 128); [lia|].
      destruct (N.ltb_spec (Byte.to_N b) 128); [lia|].
      now apply (IH None).
    + destruct Hc as [Hn Hp'].
      intros E. cbn [filter].
      destruct (N.ltb_spec (Byte.to_N b) 128); [lia|].
      now apply (IH (Some p')).
Qed.

End AsciiPassThrough.

(* ===================================================================== *)
(** ** Integers on the wire *)
(* ===================================================================== *)

Section Numerals.
Variable py : runtime.

Lemma lit_String c s :
  lit (String c s) = Byte.to_N (byte_of_ascii c) :: lit s.
Proof. reflexivity. Qed.

(** The value of a numeral whose first digit is given. *)
Lemma of_uint_first (d : Decimal.uint) :
  match d with
  | Decimal.Nil => True
  | Decimal.D0 l => Pos.of_uint d = (0 * 10 ^ Unsigned.usize l + Pos.of_uint l)%N
  | Decimal.D1 l => Pos.of_uint d = (1 * 10 ^ Unsigned.usize l + Pos.of_uint l)%N
  | Decimal.D2 l => Pos.of_uint d = (2 * 10 ^ Unsigned.usize l + Pos.of_uint l)%N
  | Decimal.D3 l => Pos.of_uint d = (3 * 10 ^ Unsigned.usize l + Pos.of_uint l)%N
  | Decimal.D4 l => Pos.of_uint d = (4 * 10 ^ Unsigned.usize l + Pos.of_uint l)%N
  | Decimal.D5 l => Pos.of_uint d = (5 * 10 ^ Unsigned.usize l + Pos.of_uint l)%N
  | Decimal.D6 l => Pos.of_uint d = (6 * 10 ^ Unsigned.usize l + Pos.of_uint l)%N
  | Decimal.D7 l => Pos.of_uint d = (7 * 10 ^ Unsigned.usize l + Pos.of_uint l)%N
  | Decimal.D8 l => Pos.of_uint d = (8 * 10 ^ Unsigned.usize l + Pos.of_uint l)%N
  | Decimal.D9 l => Pos.of_uint d = (9 * 10 ^ Unsigned.usize l + Pos.of_uint l)%N
  end.
Proof.
  destruct d as [|l|l|l|l|l|l|l|l|l|l]; [exact I|..];
    rewrite !Unsigned.of_uint_alt; unfold Decimal.rev; cbn [Decimal.revapp];
    rewrite Unsigned.of_lu_revapp; cbn [Unsigned.of_lu]; unfold Decimal.rev;
    lia.
Qed.

Lemma scan_digits_digit c v rest prev acc n :
  digit_value c = Some v ->
  scan_digits (c :: rest) prev acc n
  = scan_digits rest false (10 * acc + v)%Z (n + 1)%N.
Proof.
  intros H. cbn [scan_digits]. rewrite H.
  unfold digit_value in H.
  destruct (N.eqb_spec c underscore) as [->|]; [discriminate | reflexivity].
Qed.

(** The digits of a numeral are read as its value, most significant
    first. *)
Lemma scan_digits_numeral (d : Decimal.uint) : forall acc n,
  scan_digits (lit (NilEmpty.string_of_uint d)) false acc n
  = Some ((acc * Z.of_N (10 ^ Unsigned.usize d) + Z.of_N (Pos.of_uint d))%Z,
          (n + Unsigned.usize d)%N, []).
Proof.
  induction d as [|l IH|l IH|l IH|l IH|l IH|l IH|l IH|l IH|l IH|l IH];
    intros acc n.
  1: { cbn. apply f_equal; apply f_equal2; [apply f_equal2|reflexivity]; lia. }
  all: match goal with
       | |- context [Pos.of_uint ?d] => pose proof (of_uint_first d) as Hd
       end; cbv beta iota in Hd.
  all: cbn [NilEmpty.string_of_uint]; rewrite lit_String;
       erewrite scan_digits_digit by reflexivity;
       rewrite IH, Hd; cbn [Unsigned.usize];
       rewrite N.pow_succ_r';
       apply f_equal; apply f_equal2; [apply f_equal2|reflexivity];
       [|lia].
  all: match goal with
       | |- context [Z.of_N (to_N (byte_of_ascii ?c) - 48)] =>
           let v := eval vm_compute in (Z.of_N (to_N (byte_of_ascii c) - 48)) in
           change (Z.of_N (to_N (byte_of_ascii c) - 48)) with v
       end.
  all: rewrite ?N2Z.inj_add, ?N2Z.inj_mul; cbn [Z.of_N]; ring.
Qed.

Lemma numeral_first (d : Decimal.uint) :
  d <> Decimal.Nil ->
  exists c rest,
    lit (NilEmpty.string_of_uint d) = c :: rest /\
    (48 <= c <= 57)%N.
Proof.
  destruct d; [congruence|..]; intros _;
    cbn [NilEmpty.string_of_uint]; rewrite lit_String;
    eexists; eexists; (split; [reflexivity|]); vm_compute; split; discriminate.
Qed.

Lemma numeral_is_ascii (d : Decimal.uint) :
  is_ascii (lit (NilEmpty.string_of_uint d)) = true.
Proof.
  induction d; [reflexivity|..];
    cbn [NilEmpty.string_of_uint]; rewrite lit_String;
    unfold is_ascii in *; cbn [forallb]; rewrite IHd; reflexivity.
Qed.

Lemma numeral_length (d : Decimal.uint) :
  Unsigned.usize d = N.of_nat (String.length (NilEmpty.string_of_uint d)).
Proof.
  induction d; [reflexivity|..];
    cbn [NilEmpty.string_of_uint String.length Unsigned.usize];
    rewrite IHd; lia.
Qed.

(** An unsigned numeral of at most 640 digits, with or without a minus
    sign in front, is read as its value. *)
Lemma py_int_numeral (d : Decimal.uint) (negative : bool) :
  d <> Decimal.Nil ->
  (String.length (NilEmpty.string_of_uint d) <= 640)%nat ->
  py_int py ((if negative then [45%N] else []) ++ lit (NilEmpty.string_of_uint d))
  = Some (if negative then (- Z.of_N (Pos.of_uint d))%Z
          else Z.of_N (Pos.of_uint d)).
Proof.
  intros Hd Hlen.
  destruct (numeral_first d Hd) as (c & rest & E & Hc).
  assert (Hscan := scan_digits_numeral d 0%Z 0%N).
  assert (Hdigits : too_many_digits py (Unsigned.usize d) = false).
  { unfold too_many_digits. rewrite numeral_length.
    destruct (N.ltb_spec 640 (N.of_nat (String.length (NilEmpty.string_of_uint d))));
      [lia | reflexivity]. }
  assert (Hnz : (Unsigned.usize d =? 0)%N = false).
  { apply N.eqb_neq. destruct d; [congruence|..]; cbn [Unsigned.usize]; lia. }
  assert (Hsp : ascii_isspace c = false).
  { unfold ascii_isspace.
    destruct (N.leb_spec 9 c), (N.leb_spec c 13), (N.eqb_spec c 32);
      cbn; auto; lia. }
  assert (Hplus : (c =? 43)%N = false) by (apply N.eqb_neq; lia).
  assert (Hminus : (c =? 45)%N = false) by (apply N.eqb_neq; lia).
  assert (Hus : (c =? underscore)%N = false)
    by (apply N.eqb_neq; unfold underscore; lia).
  unfold py_int, to_ascii.
  assert (Hascii : is_ascii ((if negative then [45%N] else [])
                             ++ lit (NilEmpty.string_of_uint d)) = true).
  { unfold is_ascii. rewrite forallb_app. fold (is_ascii (lit (NilEmpty.string_of_uint d))).
    rewrite numeral_is_ascii. now destruct negative. }
  rewrite Hascii. rewrite E in *.
  destruct negative; cbn [app skip_spaces ascii_isspace N.leb N.eqb andb orb];
    cbn -[scan_digits too_many_digits] in *;
    rewrite ?Hsp, ?Hplus, ?Hminus, ?Hus, Hscan, Hdigits, Hnz;
    cbn [skip_spaces]; f_equal; lia.
Qed.

(** The decimal numeral of an integer, [str(z)] in Python, is read back
    as the integer. *)
Lemma numeral_nonnil_string (d : Decimal.uint) :
  d <> Decimal.Nil ->
  NilZero.string_of_uint d = NilEmpty.string_of_uint d.
Proof. destruct d; [congruence|..]; reflexivity. Qed.

Lemma to_uint_nonnil p : Pos.to_uint p <> Decimal.Nil.
Proof.
  intros H. pose proof (Unsigned.of_to p) as E. rewrite H in E. discriminate.
Qed.

Lemma py_int_of_numeral (z : Z) :
  (String.length (NilZero.string_of_int (Z.to_int z)) <= 640)%nat ->
  py_int py (lit (NilZero.string_of_int (Z.to_int z))) = Some z.
Proof.
  destruct z as [|p|p]; cbn [Z.to_int NilZero.string_of_int].
  - reflexivity.
  - rewrite (numeral_nonnil_string _ (to_uint_nonnil p)). intros Hlen.
    refine (eq_trans (py_int_numeral (Pos.to_uint p) false
                        (to_uint_nonnil p) Hlen) _).
    now rewrite Unsigned.of_to.
  - rewrite (numeral_nonnil_string _ (to_uint_nonnil p)).
    cbn [String.length]. intros Hlen.
    refine (eq_trans (py_int_numeral (Pos.to_uint p) true
                        (to_uint_nonnil p) _) _); [lia|].
    now rewrite Unsigned.of_to.
Qed.

End Numerals.

(* ===================================================================== *)
(** ** Received text and numerals: the properties *)
(* ===================================================================== *)

Lemma strict_decode_canonical n : forall bs s,
  List.length bs <= n ->
  utf8_decode Strict None bs = Some s ->
  str_encode s = bs /\ forallb is_scalar s = true.
Proof.
  induction n as [|n IH]; intros bs s Hlen.
  - destruct bs; [|simpl in Hlen; lia]. now intros [= <-].
  - destruct bs as [|b tl]; [now intros [= <-]|].
    intros H. apply strict_decode_first in H.
    destruct H as (c & s' & tl' & -> & E & Hc & Hs' & Hl).
    simpl in Hlen. destruct (IH tl' s') as [He Hsc]; [lia | exact Hs' |].
    cbn [str_encode flat_map forallb]. fold (str_encode s').
    now rewrite He, Hc, Hsc, E.
Qed.

Lemma subseq_length kept bs :
  subseq kept bs -> List.length kept <= List.length bs.
Proof. induction 1; simpl; lia. Qed.

Lemma str_encode_length s : List.length s <= List.length (str_encode s).
Proof.
  induction s as [|c s IH]; [reflexivity|].
  cbn [str_encode flat_map]. fold (str_encode s). rewrite length_app.
  assert (1 <= List.length (utf8_encode_char c)).
  { unfold utf8_encode_char. rewrite length_map.
    destruct (_ <? _)%N; [simpl; lia|].
    destruct (_ <? _)%N; [simpl; lia|].
    destruct (_ <? _)%N; simpl; lia. }
  simpl. lia.
Qed.

(** What the loop reads out of any bytes, in terms of the strict decoder
    and the encoder. *)
Lemma received_text_kept raw :
  subseq (str_encode (received_text raw)) raw /\
  forallb is_scalar (received_text raw) = true.
Proof.
  destruct (utf8_decode_ignore_subseq raw None [] (fun _ => eq_refl))
    as (kept & text & Hdec & Hsub & Hstrict).
  assert (Htext : received_text raw = text).
  { unfold received_text, bytes_decode. now rewrite Hdec. }
  destruct (strict_decode_canonical (List.length kept) kept text (le_n _) Hstrict)
    as [He Hsc].
  rewrite Htext, He. auto.
Qed.

(** X17. The strict decoder accepts canonical UTF-8 only: when it
    accepts bytes, the text consists of scalar values (no surrogate,
    nothing from 0x110000 on) and its encoding is these very bytes, so
    no overlong or otherwise second form of a character is read. *)
Theorem strict_decoding_is_canonical (bs : list byte) (s : str) :
  bytes_decode Strict bs = Some s ->
  str_encode s = bs /\ forallb is_scalar s = true.
Proof.
  intros H. exact (strict_decode_canonical (List.length bs) bs s (le_n _) H).
Qed.

Lemma strict_decoding_is_canonical_witness :
  str_encode [0x42; 0xE9; 0x20AC; 0x1F600]%N
  = [x42; xc3; xa9; xe2; x82; xac; xf0; x9f; x98; x80] /\
  forallb is_scalar [0x42; 0xE9; 0x20AC; 0x1F600]%N = true.
Proof.
  apply strict_decoding_is_canonical. reflexivity.
Defined.

(** X18. Whatever bytes a read returns, the text handed on consists of
    scalar values only, its UTF-8 encoding is what is left of the bytes
    after deleting some of them, and it has no more characters than
    there were bytes. *)
Theorem received_text_is_clean (raw : list byte) :
  forallb is_scalar (received_text raw) = true /\
  subseq (str_encode (received_text raw)) raw /\
  List.length (received_text raw) <= List.length raw.
Proof.
  destruct (received_text_kept raw) as [Hsub Hsc].
  split; [exact Hsc|]. split; [exact Hsub|].
  pose proof (str_encode_length (received_text raw)).
  pose proof (subseq_length _ _ Hsub). lia.
Qed.

(** X19. ASCII passes through the lenient decoder untouched: the ASCII
    characters of the text are the ASCII bytes received, all of them and
    in their order.  Noise on the line cannot swallow a character of a
    message, and bytes that are not ASCII never turn into a digit, a
    colon or any other ASCII character. *)
Theorem ascii_bytes_pass_through (raw : list byte) :
  filter (fun c => (c <? 128)%N) (received_text raw)
  = map Byte.to_N (filter (fun b => (Byte.to_N b <? 128)%N) raw).
Proof.
  apply (utf8_decode_ignore_ascii raw None); [exact I|].
  apply bytes_decode_ignore_total.
Qed.

Lemma strip_without_blanks s :
  forallb (fun c => negb (isspace c)) s = true -> strip s = s.
Proof.
  intros H.
  assert (front : forall t, forallb (fun c => negb (isspace c)) t = true ->
                            lstrip t = t).
  { intros [|c t]; [reflexivity|]. simpl. intros Ht.
    apply andb_true_iff in Ht as [Hc _]. apply negb_true_iff in Hc.
    now rewrite Hc. }
  unfold strip, rstrip. rewrite (front s H), front.
  - apply rev_involutive.
  - now rewrite forallb_rev.
Qed.

Section NumeralLines.
Variable py : runtime.

Lemma numeral_chars (d : Decimal.uint) :
  forallb (fun c => negb (isspace c) && negb (N.eqb c colon))
    (lit (NilEmpty.string_of_uint d)) = true.
Proof.
  induction d; [reflexivity|..];
    cbn [NilEmpty.string_of_uint]; rewrite lit_String; cbn [forallb];
    rewrite IHd; reflexivity.
Qed.

Lemma int_numeral_chars (z : Z) :
  forallb (fun c => negb (isspace c) && negb (N.eqb c colon))
    (lit (NilZero.string_of_int (Z.to_int z))) = true.
Proof.
  destruct z as [|p|p]; cbn [Z.to_int NilZero.string_of_int].
  - reflexivity.
  - rewrite (numeral_nonnil_string _ (to_uint_nonnil p)). apply numeral_chars.
  - rewrite (numeral_nonnil_string _ (to_uint_nonnil p)), lit_String.
    cbn [forallb]. rewrite numeral_chars. reflexivity.
Qed.

Lemma button_numeral_line b k (v : str) :
  dict_get BUTTON_TO_KEY b = Some k ->
  forallb (fun c => negb (isspace c) && negb (N.eqb c colon)) v = true ->
  split colon (strip (b ++ colon :: v)) = [b; v].
Proof.
  intros Hk Hv.
  assert (Hb : forallb (fun c => negb (isspace c) && negb (N.eqb c colon)) b = true)
    by (buttons Hk; reflexivity).
  assert (nosp : forall t,
            forallb (fun c => negb (isspace c) && negb (N.eqb c colon)) t = true ->
            forallb (fun c => negb (isspace c)) t = true).
  { intros t Ht. rewrite forallb_forall in *. intros c Hc.
    specialize (Ht c Hc). now apply andb_true_iff in Ht. }
  assert (nocolon : forall t,
            forallb (fun c => negb (isspace c) && negb (N.eqb c colon)) t = true ->
            ~ In colon t).
  { intros t Ht Hin. rewrite forallb_forall in Ht. specialize (Ht colon Hin).
    now rewrite N.eqb_refl, andb_false_r in Ht. }
  rewrite strip_without_blanks.
  - change (b ++ colon :: v) with (join colon [b; v]).
    apply split_join; [discriminate|].
    repeat constructor; auto.
  - rewrite forallb_app. cbn [forallb]. now rewrite (nosp b Hb), (nosp v Hv).
Qed.

(** X20. [int] reads the decimal numeral of every integer back as that
    integer: the digits of its absolute value, with a minus sign in front
    when it is negative (Python's [str(z)]), up to 640 characters, where
    the digit limit of the interpreter cannot apply. *)
Theorem int_reads_decimal_numeral (z : Z) :
  (String.length (NilZero.string_of_int (Z.to_int z)) <= 640)%nat ->
  py_int py (lit (NilZero.string_of_int (Z.to_int z))) = Some z.
Proof. apply py_int_of_numeral. Qed.

(** X21. On the wire form [<id>:<z>] of a button of the table and the
    decimal numeral of any integer [z], the button ends held exactly
    when [z = 1]: a key-down when [z = 1] and the button was not held, a
    key-up when [z] is any other integer and it was, nothing
    otherwise. *)
Theorem numeral_line_sets_state (b k : str) (z : Z) (held : dict bool) :
  dict_get BUTTON_TO_KEY b = Some k ->
  (String.length (NilZero.string_of_int (Z.to_int z)) <= 640)%nat ->
  process_line py (b ++ colon :: lit (NilZero.string_of_int (Z.to_int z))) held
  = (if Z.eqb z 1 then
       if dict_get_default held b false then (held, [])
       else (dict_set held b true, [Press k])
     else
       if dict_get_default held b false
       then (dict_set held b false, [Release k])
       else (held, [])) /\
  dict_get_default
    (fst (process_line py
            (b ++ colon :: lit (NilZero.string_of_int (Z.to_int z))) held))
    b false = Z.eqb z 1.
Proof.
  intros Hk Hlen.
  pose proof (button_numeral_line b k _ Hk (int_numeral_chars z)) as Hs.
  pose proof (py_int_of_numeral py z Hlen) as Hn.
  rewrite (process_line_decodes py _ held b _ z k Hs Hn Hk).
  split; [|apply tracker_sets_state].
  unfold key_state_tracker.
  destruct (Z.eqb z 1), (dict_get_default held b false); reflexivity.
Qed.

End NumeralLines.

Lemma int_reads_decimal_numeral_witness :
  py_int ascii_runtime (lit "-1234567890") = Some (-1234567890)%Z.
Proof.
  apply (int_reads_decimal_numeral ascii_runtime (-1234567890)%Z).
  vm_compute. lia.
Defined.

Lemma numeral_line_sets_state_witness :
  dict_get_default
    (fst (process_line ascii_runtime (lit "B3:-7") [(lit "B3", true)]))
    (lit "B3") false
  = false.
Proof.
  exact (proj2 (numeral_line_sets_state ascii_runtime (lit "B3") (lit "s")
                  (-7)%Z [(lit "B3", true)] eq_refl
                  ltac:(vm_compute; lia))).
Defined.

Lemma no_port_iff_no_device_witness :
  fst (find_arduino_port
         {| dev_entries := [lit "tty.usbmodem1"; lit "cu.Bluetooth"; lit "cu.usb"];
            serial_opens := fun _ _ => true; scans := [] |}) = None.
Proof.
  apply no_port_iff_no_device.
  intros name [<-|[<-|[<-|[]]]]; split; reflexivity.
Defined.

(* ===================================================================== *)
(** * Garbled input *)
(* ===================================================================== *)

Section Lenient.
Local Open Scope N_scope.

Lemma strict_decode_one c :
  is_scalar c = true ->
  utf8_decode Strict None (utf8_encode_char c) = Some [c].
Proof.
  intros Hc. rewrite <- (app_nil_r (utf8_encode_char c)).
  now rewrite (decode_encode_char Strict c [] Hc).
Qed.

Lemma strict_one_is_encoding bs c :
  utf8_decode Strict None bs = Some [c] ->
  is_scalar c = true /\ utf8_encode_char c = bs.
Proof.
  intros H.
  destruct (strict_decode_canonical (List.length bs) bs [c] (le_n _) H)
    as [He Hs].
  cbn [str_encode flat_map] in He. rewrite app_nil_r in He.
  cbn [forallb] in Hs. rewrite andb_true_r in Hs. auto.
Qed.

Lemma strict_decode_nil bs : utf8_decode Strict None bs = Some [] -> bs = [].
Proof.
  destruct bs as [|b tl]; [reflexivity|]. intros H.
  apply strict_decode_first in H.
  destruct H as (c & s' & tl' & E & _). discriminate.
Qed.

(** Completing a sequence under way with the least admissible bytes. *)
Lemma complete_pending k : forall p,
  more p = k -> lo p <= hi p -> hi p < 256 ->
  exists c,
    utf8_decode Strict (Some p) (byte_of_N (lo p) :: repeat x80 k) = Some [c].
Proof.
  induction k as [|k IH]; intros p Hk Hle Hhi.
  - rewrite utf8_decode_continue.
    + rewrite Hk. cbn. eauto.
    + apply andb_true_iff. split; apply N.leb_le; lia.
    + lia.
  - rewrite utf8_decode_continue.
    + rewrite Hk. cbn [repeat].
      apply (IH {| acc := acc p * 64 + lo p mod 64;
                   lo := 0x80; hi := 0xBF; more := k |}); cbn; lia || reflexivity.
    + apply andb_true_iff. split; apply N.leb_le; lia.
    + lia.
Qed.

Lemma reached_cut_short buf p : pending_reached buf p -> cut_short buf.
Proof.
  intros (Hne & Hle & Hhi & Heq). split; [exact Hne|].
  destruct (complete_pending (more p) p eq_refl Hle Hhi) as [c Hc].
  rewrite <- Heq in Hc. apply strict_one_is_encoding in Hc as [Hs He].
  exists c, (byte_of_N (lo p) :: repeat x80 (more p)).
  split; [exact Hs|]. split; [discriminate | exact He].
Qed.

Lemma cut_short_starts pre : cut_short pre -> starts_a_character pre.
Proof. intros (_ & c & more & Hs & _ & He). now exists c, more. Qed.

Lemma start_emit b c :
  utf8_start (Byte.to_N b) = Emit c ->
  is_scalar c = true /\ utf8_encode_char c = [b].
Proof.
  intros E. apply strict_one_is_encoding. cbn [utf8_decode]. now rewrite E.
Qed.

Lemma start_invalid b :
  utf8_start (Byte.to_N b) = Invalid -> ~ starts_a_character [b].
Proof.
  intros E (c & more & Hs & He).
  pose proof (strict_decode_one c Hs) as H. rewrite He in H.
  cbn [app utf8_decode] in H. rewrite E in H. discriminate.
Qed.

Lemma start_pend b p :
  utf8_start (Byte.to_N b) = Pend p -> pending_reached [b] p.
Proof.
  intros E. split; [discriminate|].
  assert (Hr : lo p <= hi p /\ hi p < 256).
  { rewrite utf8_start_value in E.
    destruct (Byte.to_N b <? 0x80); [discriminate|].
    destruct (Byte.to_N b <? 0xC2); [discriminate|].
    destruct (Byte.to_N b <? 0xE0); [injection E as <-; cbn [lo hi]; lia|].
    destruct (Byte.to_N b <? 0xF0).
    { injection E as <-. cbn [lo hi].
      destruct (N.eqb_spec (Byte.to_N b) 0xE0), (N.eqb_spec (Byte.to_N b) 0xED); lia. }
    destruct (Byte.to_N b <? 0xF5); [|discriminate].
    injection E as <-. cbn [lo hi].
    destruct (N.eqb_spec (Byte.to_N b) 0xF0), (N.eqb_spec (Byte.to_N b) 0xF4); lia. }
  split; [apply Hr|]. split; [apply Hr|].
  intros errors tail. cbn [app utf8_decode]. now rewrite E.
Qed.

Lemma continue_emit buf p b c :
  pending_reached buf p ->
  utf8_continue p (Byte.to_N b) = Emit c ->
  is_scalar c = true /\ utf8_encode_char c = buf ++ [b].
Proof.
  intros (_ & _ & _ & Heq) E. apply strict_one_is_encoding.
  rewrite Heq. cbn [utf8_decode]. now rewrite E.
Qed.

Lemma continue_invalid buf p b :
  pending_reached buf p ->
  utf8_continue p (Byte.to_N b) = Invalid ->
  ~ starts_a_character (buf ++ [b]).
Proof.
  intros (_ & _ & _ & Heq) E (c & more & Hs & He).
  pose proof (strict_decode_one c Hs) as H.
  rewrite He, <- app_assoc, Heq in H.
  cbn [app utf8_decode] in H. rewrite E in H. discriminate.
Qed.

Lemma continue_pend buf p b p' :
  pending_reached buf p ->
  utf8_continue p (Byte.to_N b) = Pend p' ->
  pending_reached (buf ++ [b]) p'.
Proof.
  intros (_ & _ & _ & Heq) E. split; [now destruct buf|].
  assert (Hr : lo p' = 0x80 /\ hi p' = 0xBF).
  { rewrite utf8_continue_value in E. destruct (_ && _); [|discriminate].
    destruct (more p); [discriminate|]. now injection E as <-. }
  destruct Hr as [-> ->]. split; [lia|]. split; [lia|].
  intros errors tail. rewrite <- app_assoc, Heq.
  cbn [app utf8_decode]. now rewrite E.
Qed.

(** The lenient decoder does what the description says. *)
Lemma ignore_is_lenient bs : forall st buf,
  match st with
  | None => buf = []
  | Some p => pending_reached buf p
  end ->
  exists text,
    utf8_decode Ignore st bs = Some text /\ lenient_decoding (buf ++ bs) text.
Proof.
  induction bs as [|b bs IH]; intros st buf Hst.
  - exists []. destruct st as [p|].
    + split; [reflexivity|]. rewrite app_nil_r.
      apply lenient_truncated. now apply (reached_cut_short buf p).
    + subst buf. split; [reflexivity | constructor].
  - assert (start : exists text,
      match utf8_start (Byte.to_N b) with
      | Emit c => option_map (cons c) (utf8_decode Ignore None bs)
      | Pend p => utf8_decode Ignore (Some p) bs
      | Invalid => utf8_decode Ignore None bs
      end = Some text /\ lenient_decoding (b :: bs) text).
    { destruct (utf8_start (Byte.to_N b)) as [c|p|] eqn:Es.
      - destruct (IH None [] eq_refl) as (t & E & L).
        destruct (start_emit b c Es) as [Hs He].
        exists (c :: t). rewrite E. split; [reflexivity|].
        change (b :: bs) with ([b] ++ bs). rewrite <- He.
        now constructor.
      - destruct (IH (Some p) [b] (start_pend b p Es)) as (t & E & L).
        exists t. auto.
      - destruct (IH None [] eq_refl) as (t & E & L).
        exists t. split; [exact E|].
        apply lenient_stray; [now apply start_invalid | exact L]. }
    cbn [utf8_decode]. destruct st as [p|].
    + destruct (utf8_continue p (Byte.to_N b)) as [c|p'|] eqn:Ec.
      * destruct (IH None [] eq_refl) as (t & E & L).
        destruct (continue_emit buf p b c Hst Ec) as [Hs He].
        exists (c :: t). rewrite E. split; [reflexivity|].
        change (buf ++ b :: bs) with (buf ++ [b] ++ bs).
        rewrite app_assoc, <- He. now constructor.
      * destruct (IH (Some p') (buf ++ [b]) (continue_pend buf p b p' Hst Ec))
          as (t & E & L).
        exists t. split; [exact E|]. now rewrite <- app_assoc in L.
      * destruct start as (t & E & L). exists t. split; [exact E|].
        apply lenient_broken; auto.
        -- now apply (reached_cut_short buf p).
        -- now apply (continue_invalid buf p).
    + subst buf. exact start.
Qed.

(** Walking over the beginning of a character leaves the decoder inside
    a sequence, whatever the error handler. *)
Lemma walk_prefix pre : forall st rest c,
  rest <> [] ->
  utf8_decode Strict st (pre ++ rest) = Some [c] ->
  exists st',
    (forall errors tail,
       utf8_decode errors st (pre ++ tail) = utf8_decode errors st' tail) /\
    (st <> None \/ pre <> [] -> st' <> None).
Proof.
  induction pre as [|b pre IH]; intros st rest c Hrest H.
  - exists st. split; [reflexivity|]. intros [Hs|Hp]; congruence.
  - cbn [app utf8_decode] in H.
    assert (emit_absurd : forall c0,
      option_map (cons c0) (utf8_decode Strict None (pre ++ rest)) = Some [c] ->
      False).
    { intros c0 E.
      destruct (utf8_decode Strict None (pre ++ rest)) as [s|] eqn:Es;
        [|discriminate].
      injection E as _ ->. apply strict_decode_nil in Es.
      apply app_eq_nil in Es. now destruct Es. }
    assert (from_start :
      match utf8_start (Byte.to_N b) with
      | Emit c0 => option_map (cons c0) (utf8_decode Strict None (pre ++ rest))
      | Pend p => utf8_decode Strict (Some p) (pre ++ rest)
      | Invalid => None
      end = Some [c] ->
      exists st',
        (forall errors tail,
           utf8_decode errors None (b :: pre ++ tail)
           = utf8_decode errors st' tail) /\ st' <> None).
    { destruct (utf8_start (Byte.to_N b)) as [c0|p|] eqn:Es.
      - intros E. destruct (emit_absurd c0 E).
      - intros E. destruct (IH (Some p) rest c Hrest E) as (st' & Heq & Hne).
        exists st'. split; [|apply Hne; left; discriminate].
        intros errors tail. cbn [utf8_decode]. rewrite Es. apply Heq.
      - discriminate. }
    destruct st as [p0|].
    + destruct (utf8_continue p0 (Byte.to_N b)) as [c0|p|] eqn:Ec.
      * destruct (emit_absurd c0 H).
      * destruct (IH (Some p) rest c Hrest H) as (st' & Heq & Hne).
        exists st'. split; [|intros _; apply Hne; left; discriminate].
        intros errors tail. cbn [app utf8_decode]. rewrite Ec. apply Heq.
      * discriminate.
    + destruct (from_start H) as (st' & Heq & Hne).
      exists st'. split; [exact Heq | auto].
Qed.

Lemma cut_short_reached pre :
  cut_short pre ->
  exists p,
    forall errors tail,
      utf8_decode errors None (pre ++ tail) = utf8_decode errors (Some p) tail.
Proof.
  intros (Hne & c & more & Hs & Hmore & He).
  pose proof (strict_decode_one c Hs) as H. rewrite He in H.
  destruct (walk_prefix pre None more c Hmore H) as (st' & Heq & Hst).
  destruct st' as [p|]; [|destruct (Hst (or_intror Hne) eq_refl)].
  now exists p.
Qed.

(** A sequence under way that the next byte does not continue. *)
Lemma broken_continue pre p b :
  pre <> [] ->
  (forall errors tail,
     utf8_decode errors None (pre ++ tail) = utf8_decode errors (Some p) tail) ->
  ~ starts_a_character (pre ++ [b]) ->
  utf8_continue p (Byte.to_N b) = Invalid.
Proof.
  intros Hne Heq Hno.
  destruct (utf8_continue p (Byte.to_N b)) as [c|p'|] eqn:Ec; [| |reflexivity].
  - elim Hno. exists c, [].
    assert (H : utf8_decode Strict None (pre ++ [b]) = Some [c]).
    { rewrite Heq. cbn [utf8_decode]. now rewrite Ec. }
    apply strict_one_is_encoding in H as [Hs He].
    rewrite app_nil_r. auto.
  - elim Hno. apply cut_short_starts.
    apply (reached_cut_short _ p'). split; [now destruct pre|].
    assert (Hr : lo p' = 0x80 /\ hi p' = 0xBF).
    { rewrite utf8_continue_value in Ec. destruct (_ && _); [|discriminate].
      destruct (more p); [discriminate|]. now injection Ec as <-. }
    destruct Hr as [-> ->]. split; [lia|]. split; [lia|].
    intros errors tail. rewrite <- app_assoc, Heq.
    cbn [app utf8_decode]. now rewrite Ec.
Qed.

(** What the description allows is what the lenient decoder returns. *)
Lemma lenient_is_ignore raw text :
  lenient_decoding raw text -> utf8_decode Ignore None raw = Some text.
Proof.
  induction 1 as [|c rest text Hs _ IH|b rest text Hno _ IH
                  |pre b rest text Hcut Hno _ IH|pre Hcut].
  - reflexivity.
  - now rewrite (decode_encode_char Ignore c rest Hs), IH.
  - cbn [utf8_decode].
    destruct (utf8_start (Byte.to_N b)) as [c|p|] eqn:Es; [| |exact IH].
    + elim Hno. destruct (start_emit b c Es) as [Hs He]. exists c, [].
      now rewrite app_nil_r.
    + elim Hno. apply cut_short_starts, (reached_cut_short _ p).
      now apply start_pend.
  - destruct (cut_short_reached pre Hcut) as [p Heq].
    rewrite Heq. cbn [utf8_decode].
    now rewrite (broken_continue pre p b (proj1 Hcut) Heq Hno).
  - destruct (cut_short_reached pre Hcut) as [p Heq].
    rewrite <- (app_nil_r pre), Heq. reflexivity.
Qed.

End Lenient.

(** Valid text in front of any bytes is read whole. *)
Lemma decode_valid_front e front s rest :
  utf8_decode Strict None front = Some s ->
  utf8_decode e None (front ++ rest)
  = option_map (app s) (utf8_decode e None rest).
Proof.
  intros H.
  destruct (strict_decode_canonical (List.length front) front s (le_n _) H)
    as [<- Hs].
  clear H. induction s as [|c s IH].
  - cbn. now destruct (utf8_decode e None rest).
  - cbn [forallb] in Hs. apply andb_true_iff in Hs as [Hc Hs].
    cbn [str_encode flat_map]. fold (str_encode s).
    rewrite <- app_assoc, (decode_encode_char e c _ Hc), (IH Hs).
    now destruct (utf8_decode e None rest).
Qed.

(** C10. Decoding the bytes of a read never raises: for every byte
    sequence the lenient decoder returns a text, and that text is the
    strict decoding of what is left of the bytes once the ones that are
    not valid UTF-8 are deleted; nothing is deleted from valid input, so
    the UTF-8 form of a text is read back whole.  Which bytes go is
    settled by the encoder alone: the text is the one and only lenient
    decoding of the bytes, where every character whose UTF-8 form is
    there is kept, a byte that begins no character is dropped, and so is
    the beginning of a character that is broken off.  So every ASCII byte
    received comes through, in its place, whatever surrounds it, and
    valid text in front of the bytes is kept whole.  That text is what
    the loop hands to the parser, and however garbled the received bytes
    are the read loop goes on: it ends only by a user interrupt or a
    failure of the device, never by a decoding error. *)
Theorem garbage_never_raises (py : runtime) (raw : list byte) :
  (exists kept text,
     bytes_decode Ignore raw = Some text /\
     subseq kept raw /\
     bytes_decode Strict kept = Some text /\
     (forall text', bytes_decode Strict raw = Some text' -> text' = text) /\
     (forall reads held,
        read_loop py (ReadLine raw :: reads) held =
        let '(held', acts) := process_line py text held in
        let '(ending, held'', acts') := read_loop py reads held' in
        (ending, held'', acts ++ acts')) /\
     lenient_decoding raw text /\
     (forall text', lenient_decoding raw text' -> text' = text) /\
     filter (fun c => (c <? 128)%N) text
     = map Byte.to_N (filter (fun b => (Byte.to_N b <? 128)%N) raw) /\
     (forall front s,
        bytes_decode Strict front = Some s ->
        bytes_decode Ignore (front ++ raw) = Some (s ++ text))) /\
  (forall s, forallb is_scalar s = true ->
             bytes_decode Ignore (str_encode s) = Some s) /\
  (forall raws held,
     exists held' acts,
       read_loop py (map ReadLine raws) held = (Blocked, held', acts)) /\
  (forall reads held e,
     fst (fst (read_loop py reads held)) = Raised e ->
     e = KeyboardInterrupt \/ e = SerialException).
Proof.
  split; [|split; [|split]].
  - destruct (utf8_decode_ignore_subseq raw None [] (fun _ => eq_refl))
      as (kept & text & Hdec & Hsub & Hstrict).
    assert (Htext : received_text raw = text).
    { unfold received_text, bytes_decode. now rewrite Hdec. }
    exists kept, text. split; [exact Hdec|]. split; [exact Hsub|].
    split; [exact Hstrict|]. split; [|split; [|split; [|split; [|split]]]].
    + intros text' H. apply utf8_decode_strict_ignore in H.
      unfold bytes_decode in *. congruence.
    + intros reads held. rewrite <- Htext. apply read_loop_line.
    + destruct (ignore_is_lenient raw None [] eq_refl) as (t & E & L).
      cbn [app] in L. congruence.
    + intros text' L. apply lenient_is_ignore in L. congruence.
    + now apply (utf8_decode_ignore_ascii raw None).
    + intros front s Hs. unfold bytes_decode in *.
      now rewrite (decode_valid_front Ignore front s raw Hs), Hdec.
  - intros s Hs. now apply decode_encode.
  - intros raws held.
    rewrite <- (app_nil_r (map ReadLine raws)), read_loop_lines.
    destruct (process_lines py (map received_text raws) held) as [held' acts].
    exists held', (acts ++ []). reflexivity.
  - apply read_loop_raises.
Qed.

Lemma garbage_never_raises_witness :
  bytes_decode Ignore
    ([xff; xed; xa0; x80; xc3] ++ list_byte_of_string "B1:1" ++ [xe2; x82])
  = Some (lit "B1:1") /\
  lenient_decoding
    ([xff; xed; xa0; x80; xc3] ++ list_byte_of_string "B1:1" ++ [xe2; x82])
    (lit "B1:1") /\
  read_loop ascii_runtime
    [ReadLine ([xff; xed; xa0; x80; xc3] ++ list_byte_of_string "B1:1"
               ++ [xe2; x82])] []
  = (Blocked, [(lit "B1", true)], [Press (lit "w")]).
Proof.
  destruct (garbage_never_raises ascii_runtime
              ([xff; xed; xa0; x80; xc3] ++ list_byte_of_string "B1:1"
               ++ [xe2; x82]))
    as ((kept & text & Hdec & _ & _ & _ & Hloop & Hlen & _) & _).
  assert (E : Some text = Some (lit "B1:1")).
  { rewrite <- Hdec. reflexivity. }
  injection E as ->.
  split; [exact Hdec|]. split; [exact Hlen|].
  rewrite Hloop. reflexivity.
Defined.
